(** * Source tracking orchestrator: a shallow embedding of
      [src/sourceTracking.ts] and [src/commands/source/push.ts].

    JavaScript objects are records whose optional properties are [option]s,
    [Map<string, V>] is an insertion-ordered association list, [Set<object>]
    is a list of objects compared by identity, a thrown [Error] is the
    [Throw] branch of [Result], and the calls made to the two ledgers and to
    the command's collaborators are recorded in a trace. *)

From Stdlib Require Import String List Bool Arith Lia.
From Stdlib Require Import Permutation.
Import ListNotations.
Open Scope string_scope.
Open Scope list_scope.

(** ** Data model *)

Inductive Origin : Type := origin_local | origin_remote.

Inductive State : Type :=
  state_add | state_delete | state_changed | state_unchanged | state_moved.

(** [ChangeOptions]: [origin] is optional, [state] is not. *)
Record ChangeOptions : Type := mkChangeOptions {
  opt_origin : option Origin;
  opt_state : State
}.

(** Modelled from the spec: the [RemoteChangeElement] type is declared in
    [shared/remoteSourceTrackingService], which is not among the sources.
    [ChangeResult] is [Partial<RemoteChangeElement>] plus [origin] and
    [filenames], and the spec lists for it an optional type, an optional
    name and optional deleted and modified flags; the element itself carries
    its type and name, and the two flags stay optional. *)
Record RemoteChangeElement : Type := mkRemoteChangeElement {
  rce_name : string;
  rce_type : string;
  rce_deleted : option bool;
  rce_modified : option bool
}.

(** [ChangeResult].  The declared type makes [origin] mandatory; it is an
    [option] here because spreading a missing map entry ([{...undefined}])
    yields an object without it. *)
Record ChangeResult : Type := mkChangeResult {
  origin : option Origin;
  type : option string;
  name : option string;
  deleted : option bool;
  modified : option bool;
  filenames : option (list string)
}.

(** The object [{}]. *)
Definition empty_object : ChangeResult :=
  mkChangeResult None None None None None None.

(** [{ filenames: [filename], origin: 'local' }] *)
Definition local_change (filename : string) : ChangeResult :=
  mkChangeResult (Some origin_local) None None None None (Some [filename]).

(** [{ ...change, origin: 'remote' }] *)
Definition remote_change (change : RemoteChangeElement) : ChangeResult :=
  mkChangeResult (Some origin_remote) (Some (rce_type change))
    (Some (rce_name change)) (rce_deleted change) (rce_modified change) None.

(** [{ ...element, modified: true, filenames: fs }] *)
Definition with_filenames (element : ChangeResult) (fs : list string)
  : ChangeResult :=
  mkChangeResult (origin element) (type element) (name element)
    (deleted element) (Some true) (Some fs).

(** [{ ...element, type: t, name: n }] *)
Definition with_identity (element : ChangeResult) (t n : string)
  : ChangeResult :=
  mkChangeResult (origin element) (Some t) (Some n) (deleted element)
    (modified element) (filenames element).

(** [{ ...x }] where [x] may be [undefined]. *)
Definition spread (x : option ChangeResult) : ChangeResult :=
  match x with
  | Some element => element
  | None => empty_object
  end.

(** The part of an SDR [SourceComponent] the orchestrator reads:
    [fullName], [type.name], [xml] and the result of [walkContent()]. *)
Record SourceComponent : Type := mkSourceComponent {
  fullName : string;
  type_name : string;
  xml : option string;
  walkContent : list string
}.

(** [{ type, fullName }], the [ComponentLike] handed to [ComponentSet]; the
    casts [as string] do nothing at run time, so [undefined] passes through. *)
Record ComponentLike : Type := mkComponentLike {
  cl_type : option string;
  cl_fullName : option string
}.

(** ** Decidable equalities *)

Definition origin_eqb (a b : Origin) : bool :=
  match a, b with
  | origin_local, origin_local | origin_remote, origin_remote => true
  | _, _ => false
  end.

Definition option_eqb {A : Type} (eqb : A -> A -> bool) (x y : option A)
  : bool :=
  match x, y with
  | Some a, Some b => eqb a b
  | None, None => true
  | _, _ => false
  end.

Fixpoint list_eqb {A : Type} (eqb : A -> A -> bool) (xs ys : list A) : bool :=
  match xs, ys with
  | [], [] => true
  | x :: xs', y :: ys' => eqb x y && list_eqb eqb xs' ys'
  | _, _ => false
  end.

(** Structural (deep) equality of two change records. *)
Definition ChangeResult_eqb (a b : ChangeResult) : bool :=
  option_eqb origin_eqb (origin a) (origin b)
  && option_eqb String.eqb (type a) (type b)
  && option_eqb String.eqb (name a) (name b)
  && option_eqb Bool.eqb (deleted a) (deleted b)
  && option_eqb Bool.eqb (modified a) (modified b)
  && option_eqb (list_eqb String.eqb) (filenames a) (filenames b).

(** Whether a list holds two structurally equal records. *)
Fixpoint has_structural_duplicate (xs : list ChangeResult) : bool :=
  match xs with
  | [] => false
  | x :: rest =>
      existsb (ChangeResult_eqb x) rest || has_structural_duplicate rest
  end.

(** ** JavaScript values *)

(** Truthiness of a possibly missing string: [undefined] and [''] are
    falsy. *)
Definition truthy (s : option string) : bool :=
  match s with
  | Some v => negb (String.eqb v "")
  | None => false
  end.

(** Truthiness of a possibly missing boolean flag. *)
Definition truthy_flag (b : option bool) : bool :=
  match b with
  | Some v => v
  | None => false
  end.

(** [x === b] for a possibly missing boolean [x] and a boolean [b]. *)
Definition strict_eq_bool (x : option bool) (b : bool) : bool :=
  match x with
  | Some v => Bool.eqb v b
  | None => false
  end.

(** A template literal prints a missing value as [undefined]. *)
Definition template (s : option string) : string :=
  match s with
  | Some v => v
  | None => "undefined"
  end.

(** [Array.prototype.join]. *)
Fixpoint join (sep : string) (xs : list string) : string :=
  match xs with
  | [] => ""
  | [x] => x
  | x :: rest => (x ++ sep ++ join sep rest)%string
  end.

(** *** Errors *)

(** The message of an error.  [JSON.stringify] depends on the insertion
    order of an object's properties, which a record does not keep, so the
    message built from it keeps the element itself. *)
Inductive Message : Type :=
| msg_text (text : string)
| msg_unable_to_complete_key (element : ChangeResult).

(** An error object: its [name], its [message] and, when it has one, its
    [conflicts] property (the [ConflictError] interface). *)
Record JsError : Type := mkJsError {
  err_name : string;
  err_message : Message;
  err_conflicts : option (list ChangeResult)
}.

(** [new Error(message)] *)
Definition new_Error (m : Message) : JsError := mkJsError "Error" m None.

(** Reading a property of [undefined]. *)
Definition TypeError (what : string) : JsError :=
  mkJsError "TypeError" (msg_text what) None.

(** The [ConflictError] interface: [name] is the literal ['conflict'] and
    [conflicts] is present. *)
Definition is_ConflictError (e : JsError) (cs : list ChangeResult) : Prop :=
  err_name e = "conflict" /\ err_conflicts e = Some cs.

Inductive Result (A : Type) : Type :=
| Ok (value : A)
| Throw (error : JsError).

Arguments Ok {A} value.
Arguments Throw {A} error.

(** *** [Map<string, V>]: insertion-ordered, [set] on a present key keeps
    the key's position *)

Definition JsMap (V : Type) : Type := list (string * V).

Fixpoint map_set {V : Type} (k : string) (v : V) (m : JsMap V) : JsMap V :=
  match m with
  | [] => [(k, v)]
  | (k', v') :: rest =>
      if String.eqb k k' then (k, v) :: rest else (k', v') :: map_set k v rest
  end.

Fixpoint map_get {V : Type} (k : string) (m : JsMap V) : option V :=
  match m with
  | [] => None
  | (k', v') :: rest => if String.eqb k k' then Some v' else map_get k rest
  end.

Definition map_has {V : Type} (k : string) (m : JsMap V) : bool :=
  match map_get k m with
  | Some _ => true
  | None => false
  end.

Definition map_values {V : Type} (m : JsMap V) : list V := map snd m.

Definition map_keys {V : Type} (m : JsMap V) : list string := map fst m.

(** *** Objects with identity, and [Set<object>] *)

(** An object the caller passed in keeps the identity the caller gave it;
    an object literal evaluated by the code is a new object. *)
Inductive ObjId : Type :=
| Given (i : nat)
| Fresh (i : nat).

Definition ObjId_eqb (a b : ObjId) : bool :=
  match a, b with
  | Given i, Given j | Fresh i, Fresh j => Nat.eqb i j
  | _, _ => false
  end.

Definition Obj : Type := (ObjId * ChangeResult)%type.

(** [Set.prototype.add]: membership is by identity (SameValueZero on object
    references), never by contents. *)
Definition set_add (o : Obj) (s : list Obj) : list Obj :=
  if existsb (fun o' => ObjId_eqb (fst o) (fst o')) s then s else s ++ [o].

(** [new Set(values)] *)
Definition new_Set (values : list Obj) : list Obj :=
  fold_left (fun s o => set_add o s) values [].

(** ** The collaborators *)

(** The local ledger, as far as the orchestrator reads it: the three lists
    of paths it reports. *)
Record ShadowRepo : Type := mkShadowRepo {
  getModifyFilenames : list string;
  getDeleteFilenames : list string;
  getAddFilenames : list string
}.

(** The remote ledger, as far as the orchestrator reads it: the outstanding
    delta [retrieveUpdates] answers with. *)
Record RemoteSourceTrackingService : Type := mkRemoteSourceTrackingService {
  retrieveUpdates : list RemoteChangeElement
}.

(** An SDR [FileResponse]; the command only passes it on. *)
Definition FileResponse : Type := string.

(** Everything the two files import and do not define.  [getMetadataKey] is
    exported by [shared/remoteSourceTrackingService]; [ComponentSet_size xs]
    is [new ComponentSet(xs).size]; [ComponentSet_fromSource dirs xs] is
    [ComponentSet.fromSource({ fsPaths: dirs, include: new ComponentSet(xs) })
    .getSourceComponents().toArray()]; [getComponentsFromPath] answers [None]
    where [MetadataResolver.getComponentsFromPath] throws; the two [path_]
    functions are Node's; the two factories take the arguments the
    orchestrator gives them. *)
Record Env : Type := mkEnv {
  getMetadataKey : string -> string -> string;
  ComponentSet_size : list ComponentLike -> nat;
  ComponentSet_fromSource :
    list string -> list ComponentLike -> list SourceComponent;
  getComponentsFromPath : string -> option (list SourceComponent);
  path_isAbsolute : string -> bool;
  path_relative : string -> string -> string;
  ShadowRepo_create : string -> string -> list string -> ShadowRepo;
  RemoteSourceTrackingService_getInstance :
    string -> string -> RemoteSourceTrackingService
}.

(** Calls that leave the orchestrator. *)
Inductive Event : Type :=
| call_ShadowRepo_create
| call_getStatus
| call_getInstance
| call_retrieveUpdates
| call_writeConflictTable (conflicts : list ChangeResult)
| call_deployLocalChanges
| call_logJson (deployResult : list FileResponse).

(** The fields of a [SourceTracking] instance. *)
Record SourceTracking : Type := mkSourceTracking {
  orgId : string;
  projectPath : string;
  packagesDirs : list string;
  username : string;
  localRepo : option ShadowRepo;
  remoteSourceTrackingService : option RemoteSourceTrackingService
}.

(** [new SourceTracking({ org, project })]: neither ledger is loaded. *)
Definition new_SourceTracking (org_id user project_path : string)
    (package_dirs : list string) : SourceTracking :=
  mkSourceTracking org_id project_path package_dirs user None None.

Definition set_localRepo (r : ShadowRepo) (t : SourceTracking)
  : SourceTracking :=
  mkSourceTracking (orgId t) (projectPath t) (packagesDirs t) (username t)
    (Some r) (remoteSourceTrackingService t).

Definition set_remoteSourceTrackingService (r : RemoteSourceTrackingService)
    (t : SourceTracking) : SourceTracking :=
  mkSourceTracking (orgId t) (projectPath t) (packagesDirs t) (username t)
    (localRepo t) (Some r).

(** A process: the instance and the calls made so far, oldest first. *)
Record Process : Type := mkProcess {
  this : SourceTracking;
  calls : list Event
}.

(** ** A state-and-exception monad for the asynchronous methods *)

Definition M (A : Type) : Type := Process -> Result A * Process.

Definition ret {A : Type} (a : A) : M A := fun p => (Ok a, p).

Definition throw {A : Type} (e : JsError) : M A := fun p => (Throw e, p).

Definition bind {A B : Type} (m : M A) (k : A -> M B) : M B :=
  fun p =>
    match m p with
    | (Ok a, p') => k a p'
    | (Throw e, p') => (Throw e, p')
    end.

Notation "x <- m ;; k" := (bind m (fun x => k))
  (at level 61, m at next level, right associativity).
Notation "m ;;; k" := (bind m (fun _ => k))
  (at level 61, right associativity).

Definition lift {A : Type} (r : Result A) : M A := fun p => (r, p).

Definition get_this : M SourceTracking := fun p => (Ok (this p), p).

Definition put_this (t : SourceTracking) : M unit :=
  fun p => (Ok tt, mkProcess t (calls p)).

Definition emit (e : Event) : M unit :=
  fun p => (Ok tt, mkProcess (this p) (calls p ++ [e])).

(** [this.localRepo.m()]: a [TypeError] when the field is still
    [undefined]. *)
Definition the_localRepo : M ShadowRepo :=
  t <- get_this ;;
  match localRepo t with
  | Some r => ret r
  | None => throw (TypeError "localRepo")
  end.

Definition the_remoteSourceTrackingService : M RemoteSourceTrackingService :=
  t <- get_this ;;
  match remoteSourceTrackingService t with
  | Some r => ret r
  | None => throw (TypeError "remoteSourceTrackingService")
  end.

Definition optlist {A : Type} (o : option (list A)) : list A :=
  match o with
  | Some xs => xs
  | None => []
  end.

(** [[x, ...ys].filter((filename) => filename)]: the truthy entries. *)
Definition truthy_strings (xs : list (option string)) : list string :=
  flat_map (fun x => if truthy x then [template x] else []) xs.

Section Orchestrator.

Context (env : Env).

(** *** [getKeyFromObject] *)

Definition getKeyFromObject (element : ChangeResult) : Result string :=
  if truthy (type element) && truthy (name element) then
    Ok (getMetadataKey env (template (type element)) (template (name element)))
  else
    Throw (new_Error (msg_unable_to_complete_key element)).

Definition getKeyFromStrings : string -> string -> string :=
  getMetadataKey env.

(** *** [ensureLocalTracking], [ensureRemoteTracking]

    Here each call runs to its end in one piece, as a call that is awaited
    does; [begin_ensureLocalTracking], [begin_ensureRemoteTracking] and
    [continue] below give the pieces between the [await]s for calls that
    overlap. *)

Definition ensureLocalTracking : M unit :=
  t <- get_this ;;
  match localRepo t with
  | Some _ => ret tt
  | None =>
      emit call_ShadowRepo_create ;;;
      put_this (set_localRepo
                  (ShadowRepo_create env (orgId t) (projectPath t)
                     (packagesDirs t)) t) ;;;
      emit call_getStatus
  end.

Definition ensureRemoteTracking (initializeWithQuery : bool) : M unit :=
  t <- get_this ;;
  match remoteSourceTrackingService t with
  | Some _ => ret tt
  | None =>
      emit call_getInstance ;;;
      put_this (set_remoteSourceTrackingService
                  (RemoteSourceTrackingService_getInstance env (username t)
                     (orgId t)) t) ;;;
      if initializeWithQuery then
        service <- the_remoteSourceTrackingService ;;
        emit call_retrieveUpdates
      else ret tt
  end.

(** *** [getChanges] *)

Definition is_delete (s : State) : bool :=
  match s with
  | state_delete => true
  | _ => false
  end.

Definition getChanges (options : option ChangeOptions)
  : M (list ChangeResult) :=
  match options with
  | Some (mkChangeOptions (Some origin_local) state) =>
      ensureLocalTracking ;;;
      match state with
      | state_changed =>
          repo <- the_localRepo ;;
          ret (map local_change (getModifyFilenames repo))
      | state_delete =>
          repo <- the_localRepo ;;
          ret (map local_change (getDeleteFilenames repo))
      | state_add =>
          repo <- the_localRepo ;;
          ret (map local_change (getAddFilenames repo))
      | state_unchanged | state_moved => ret []
      end
  | Some (mkChangeOptions (Some origin_remote) state) =>
      ensureRemoteTracking false ;;;
      service <- the_remoteSourceTrackingService ;;
      emit call_retrieveUpdates ;;;
      let remoteChanges := retrieveUpdates service in
      ret (map remote_change
             (filter (fun change =>
                        strict_eq_bool (rce_deleted change) (is_delete state))
                remoteChanges))
  | Some (mkChangeOptions None _) | None => ret []
  end.

Definition getRemoteChanges : M (list RemoteChangeElement) :=
  ensureRemoteTracking false ;;;
  service <- the_remoteSourceTrackingService ;;
  emit call_retrieveUpdates ;;;
  ret (retrieveUpdates service).

(** *** [ensureRelative] *)

Definition ensureRelative (t : SourceTracking) (filePath : string) : string :=
  if path_isAbsolute env filePath
  then path_relative env (projectPath t) filePath
  else filePath.

(** *** [populateFilePaths] *)

(** The message of the error thrown when the component set is too small. *)
Definition incomplete_component_set (elements : list ChangeResult)
  : JsError :=
  new_Error
    (msg_text
       ("unable to generate complete component set for " ++
        join ","
          (map (fun element =>
                  template (name element) ++ "(" ++
                  template (type element) ++ ")")
             elements))%string).

(** [elements.map((element) => elementMap.set(getKeyFromObject(element),
    element))]: the first element without a key ends the loop. *)
Fixpoint index_by_key (elements : list ChangeResult)
    (elementMap : JsMap ChangeResult) : Result (JsMap ChangeResult) :=
  match elements with
  | [] => Ok elementMap
  | element :: rest =>
      match getKeyFromObject element with
      | Ok key => index_by_key rest (map_set key element elementMap)
      | Throw e => Throw e
      end
  end.

(** One round of the loop over the local components. *)
Definition attach_filenames (elementMap : JsMap ChangeResult)
    (matchingComponent : SourceComponent) : JsMap ChangeResult :=
  if truthy (Some (fullName matchingComponent))
     && truthy (Some (type_name matchingComponent))
  then
    let key := getKeyFromStrings (type_name matchingComponent)
                 (fullName matchingComponent) in
    map_set key
      (with_filenames (spread (map_get key elementMap))
         (truthy_strings (xml matchingComponent
                          :: map Some (walkContent matchingComponent))))
      elementMap
  else elementMap.

Definition populateFilePaths (t : SourceTracking)
    (elements : list ChangeResult) : Result (list ChangeResult) :=
  if Nat.eqb (length elements) 0 then Ok []
  else
    let remoteChangesAsComponentLike :=
      map (fun element => mkComponentLike (type element) (name element))
        elements in
    if Nat.ltb (ComponentSet_size env remoteChangesAsComponentLike)
         (length elements)
    then Throw (incomplete_component_set elements)
    else
      let matchingLocalSourceComponents :=
        ComponentSet_fromSource env (packagesDirs t)
          remoteChangesAsComponentLike in
      match index_by_key elements [] with
      | Throw e => Throw e
      | Ok elementMap =>
          Ok (map_values
                (fold_left attach_filenames matchingLocalSourceComponents
                   elementMap))
      end.

(** *** [populateTypesAndNames] *)

(** The components the resolver finds for the elements' filenames; a path
    it throws on contributes none. *)
Definition resolve_components (elements : list Obj) : list SourceComponent :=
  flat_map (fun filename =>
              match getComponentsFromPath env filename with
              | Some components => components
              | None => []
              end)
    (flat_map (fun element => optlist (filenames (snd element))) elements).

(** [elements.map((element) => element.filenames?.map((filename) =>
    elementMap.set(this.ensureRelative(filename), element)))] *)
Definition index_by_filename (t : SourceTracking) (elements : list Obj)
  : JsMap Obj :=
  fold_left
    (fun elementMap element =>
       fold_left
         (fun elementMap filename =>
            map_set (ensureRelative t filename) element elementMap)
         (optlist (filenames (snd element))) elementMap)
    elements [].

(** The state of the second loop: the next unused identity and the map. *)
Definition Alloc (A : Type) : Type := (nat * A)%type.

(** The body run for each filename of a matching component: the entry is
    replaced by a new object carrying the component's type and name. *)
Definition attach_identity (matchingComponent : SourceComponent)
    (st : Alloc (JsMap Obj)) (filename : option string) : Alloc (JsMap Obj) :=
  let '(next, elementMap) := st in
  if truthy filename && map_has (template filename) elementMap then
    (S next,
     map_set (template filename)
       (Fresh next,
        with_identity
          (spread (option_map snd (map_get (template filename) elementMap)))
          (type_name matchingComponent) (fullName matchingComponent))
       elementMap)
  else st.

Definition attach_identities (st : Alloc (JsMap Obj))
    (matchingComponent : SourceComponent) : Alloc (JsMap Obj) :=
  if truthy (Some (fullName matchingComponent))
     && truthy (Some (type_name matchingComponent))
  then
    fold_left (attach_identity matchingComponent)
      (xml matchingComponent :: map Some (walkContent matchingComponent)) st
  else st.

Definition has_identity (changeResult : Obj) : bool :=
  truthy (name (snd changeResult)) && truthy (type (snd changeResult)).

Definition populateTypesAndNames (t : SourceTracking) (elements : list Obj)
    (excludeUnresolvable : bool) : list Obj :=
  if Nat.eqb (length elements) 0 then []
  else
    let sourceComponents := resolve_components elements in
    let elementMap :=
      snd (fold_left attach_identities sourceComponents
             (0, index_by_filename t elements)) in
    if excludeUnresolvable
    then filter has_identity (new_Set (map_values elementMap))
    else new_Set (map_values elementMap).

(** *** [getConflicts] *)

(** [remoteChanges.map((change) => change.filenames?.map((filename) =>
    fileNameIndex.set(filename, change)))] *)
Definition build_fileNameIndex (remoteChanges : list ChangeResult)
  : JsMap ChangeResult :=
  fold_left
    (fun fileNameIndex change =>
       fold_left
         (fun fileNameIndex filename => map_set filename change fileNameIndex)
         (optlist (filenames change)) fileNameIndex)
    remoteChanges [].

(** [if (fileNameIndex.has(filename)) conflicts.add({ ...fileNameIndex.get(
    filename) })]: the object literal is a new object each time. *)
Definition add_conflict (fileNameIndex : JsMap ChangeResult)
    (st : Alloc (list Obj)) (filename : string) : Alloc (list Obj) :=
  let '(next, conflicts) := st in
  if map_has filename fileNameIndex then
    (S next,
     set_add (Fresh next, spread (map_get filename fileNameIndex)) conflicts)
  else st.

Definition collect_conflicts (fileNameIndex : JsMap ChangeResult)
    (localChanges : list ChangeResult) : list Obj :=
  snd (fold_left
         (fun st change =>
            fold_left (add_conflict fileNameIndex)
              (optlist (filenames change)) st)
         localChanges (0, [])).

Definition getConflicts : M (list ChangeResult) :=
  ensureRemoteTracking false ;;;
  ensureLocalTracking ;;;
  changedLocally <-
    getChanges (Some (mkChangeOptions (Some origin_local) state_changed)) ;;
  addedLocally <-
    getChanges (Some (mkChangeOptions (Some origin_local) state_add)) ;;
  let localChanges := changedLocally ++ addedLocally in
  changedRemotely <-
    getChanges (Some (mkChangeOptions (Some origin_remote) state_changed)) ;;
  t <- get_this ;;
  remoteChanges <- lift (populateFilePaths t changedRemotely) ;;
  let fileNameIndex := build_fileNameIndex remoteChanges in
  ret (map snd (collect_conflicts fileNameIndex localChanges)).

(** *** The push command, [SourcePush.run] *)

Record Flags : Type := mkFlags {
  forceoverwrite : option bool;
  json : option bool
}.

(** [tracking.deployLocalChanges]: the class [SourceTracking] declares no
    such method (the lines that would are comments), so the property read
    from an instance is [undefined]. *)
Definition SourceTracking_deployLocalChanges
  : option (M (list FileResponse)) := None.

(** Calling [undefined]. *)
Definition not_a_function (what : string) : JsError :=
  TypeError (what ++ " is not a function")%string.

Definition run (flags : Flags) : M (list FileResponse) :=
  (if negb (truthy_flag (forceoverwrite flags)) then
     conflicts <- getConflicts ;;
     if Nat.ltb 0 (length conflicts) then
       emit (call_writeConflictTable conflicts) ;;;
       throw (new_Error (msg_text "conflicts detected"))
     else ret tt
   else ret tt) ;;;
  match SourceTracking_deployLocalChanges with
  | None => throw (not_a_function "tracking.deployLocalChanges")
  | Some deployLocalChanges =>
      emit call_deployLocalChanges ;;;
      deployResult <- deployLocalChanges ;;
      (if negb (truthy_flag (json flags))
       then emit (call_logJson deployResult)
       else ret tt) ;;;
      ret deployResult
  end.

(** [SourcePush.run] from the command's start: a new [SourceTracking] and
    no call made yet. *)
Definition push (org_id user project_path : string)
    (package_dirs : list string) (flags : Flags)
  : Result (list FileResponse) * Process :=
  run flags
    (mkProcess (new_SourceTracking org_id user project_path package_dirs) []).

End Orchestrator.

(** ** How a call reads the ledgers *)

(** The ledger a method finds once [ensureLocalTracking] has run: the
    stored one, or the one the factory gives. *)
Definition local_ledger (env : Env) (t : SourceTracking) : ShadowRepo :=
  match localRepo t with
  | Some r => r
  | None => ShadowRepo_create env (orgId t) (projectPath t) (packagesDirs t)
  end.

Definition remote_ledger (env : Env) (t : SourceTracking)
  : RemoteSourceTrackingService :=
  match remoteSourceTrackingService t with
  | Some r => r
  | None => RemoteSourceTrackingService_getInstance env (username t) (orgId t)
  end.

(** All the filenames a list of change records carries. *)
Definition all_filenames (changes : list ChangeResult) : list string :=
  flat_map (fun change => optlist (filenames change)) changes.

(** An object that carries at least one filename. *)
Definition carries_filename (o : Obj) : Prop :=
  optlist (filenames (snd o)) <> [].

(** One copy of the indexed remote change for each occurrence of a local
    filename the index knows, in the order of the local filenames. *)
Definition matching_copies (fileNameIndex : JsMap ChangeResult)
    (localFilenames : list string) : list ChangeResult :=
  map (fun filename => spread (map_get filename fileNameIndex))
    (filter (fun filename => map_has filename fileNameIndex) localFilenames).

(** The remote changes [getConflicts] hands to [populateFilePaths]. *)
Definition remote_changed (env : Env) (t : SourceTracking)
  : list ChangeResult :=
  map remote_change
    (filter (fun change => strict_eq_bool (rce_deleted change) false)
       (retrieveUpdates (remote_ledger env t))).

(** The paths the local ledger reports as modified or added. *)
Definition local_changed_or_added (env : Env) (t : SourceTracking)
  : list string :=
  getModifyFilenames (local_ledger env t) ++
  getAddFilenames (local_ledger env t).

(** Calls made to the two ledgers. *)
Definition ledger_call (e : Event) : bool :=
  match e with
  | call_ShadowRepo_create | call_getStatus | call_getInstance
  | call_retrieveUpdates => true
  | _ => false
  end.

(** An object made by the running loop before it allocates [next]. *)
Definition made_before (next : nat) (o : Obj) : Prop :=
  exists k, fst o = Fresh k /\ k < next.

(** [n] calls of [m] in a row, as long as none throws. *)
Fixpoint repeat_call (n : nat) (m : M unit) : M unit :=
  match n with
  | O => ret tt
  | S n' => m ;;; repeat_call n' m
  end.

(** ** A small project to run the code on

    One Apex class [Foo], stored as [classes/Foo.cls] with its descriptor
    [classes/Foo.cls-meta.xml]; every other path is unknown to the
    resolver. *)
Module Project.

Definition key (metadataType metadataName : string) : string :=
  (metadataType ++ "__" ++ metadataName)%string.

Definition like_eqb (a b : ComponentLike) : bool :=
  option_eqb String.eqb (cl_type a) (cl_type b)
  && option_eqb String.eqb (cl_fullName a) (cl_fullName b).

(** A component set holds one member for each distinct type and name. *)
Fixpoint distinct (xs : list ComponentLike) : list ComponentLike :=
  match xs with
  | [] => []
  | x :: rest =>
      if existsb (like_eqb x) rest then distinct rest else x :: distinct rest
  end.

Definition Foo : SourceComponent :=
  mkSourceComponent "Foo" "ApexClass" (Some "classes/Foo.cls-meta.xml")
    ["classes/Foo.cls"].

Definition on_disk : list SourceComponent := [Foo].

Definition selected (include : list ComponentLike) (c : SourceComponent)
  : bool :=
  existsb
    (like_eqb (mkComponentLike (Some (type_name c)) (Some (fullName c))))
    include.

Definition owns (path : string) (c : SourceComponent) : bool :=
  existsb (String.eqb path) (truthy_strings (xml c :: map Some (walkContent c))).

Definition resolve (path : string) : option (list SourceComponent) :=
  match filter (owns path) on_disk with
  | [] => None
  | found => Some found
  end.

Definition strip (root filePath : string) : string :=
  let dir := (root ++ "/")%string in
  if String.prefix dir filePath
  then String.substring (String.length dir)
         (String.length filePath - String.length dir) filePath
  else filePath.

Definition env (repo : ShadowRepo) (service : RemoteSourceTrackingService)
  : Env :=
  mkEnv key
    (fun include => length (distinct include))
    (fun _ include => filter (selected include) on_disk)
    resolve
    (String.prefix "/")
    strip
    (fun _ _ _ => repo)
    (fun _ _ => service).

Definition tracking : SourceTracking :=
  new_SourceTracking "00D000000000001" "dev@example.com" "/work/project"
    ["/work/project/force-app"].

Definition start : Process := mkProcess tracking [].

Definition Foo_changed : RemoteChangeElement :=
  mkRemoteChangeElement "Foo" "ApexClass" (Some false) None.

(** The remote change for [Foo] once its paths are attached. *)
Definition Foo_conflict : ChangeResult :=
  mkChangeResult (Some origin_remote) (Some "ApexClass") (Some "Foo")
    (Some false) (Some true)
    (Some ["classes/Foo.cls-meta.xml"; "classes/Foo.cls"]).

(** [Foo.cls] was added locally and [Foo] changed remotely. *)
Definition added_Foo : Env :=
  env (mkShadowRepo [] [] ["classes/Foo.cls"])
    (mkRemoteSourceTrackingService [Foo_changed]).

(** Both files of [Foo] were modified locally and [Foo] changed remotely. *)
Definition modified_both_files : Env :=
  env (mkShadowRepo ["classes/Foo.cls"; "classes/Foo.cls-meta.xml"] [] [])
    (mkRemoteSourceTrackingService [Foo_changed]).

(** An unrelated file was modified locally and [Foo] changed remotely. *)
Definition modified_Bar : Env :=
  env (mkShadowRepo ["classes/Bar.cls"] [] [])
    (mkRemoteSourceTrackingService [Foo_changed]).

(** The remote ledger reports [Foo] without a [deleted] flag. *)
Definition Foo_unflagged : RemoteChangeElement :=
  mkRemoteChangeElement "Foo" "ApexClass" None None.

Definition unflagged_update : Env :=
  env (mkShadowRepo [] [] [])
    (mkRemoteSourceTrackingService [Foo_unflagged]).

(** A change record with a type and no name. *)
Definition nameless : ChangeResult :=
  mkChangeResult (Some origin_remote) (Some "ApexClass") None (Some false)
    None None.

Definition no_flags : Flags := mkFlags None None.

End Project.

(** ** Notions the further properties are stated with *)

(** The key [populateFilePaths] files a local component under. *)
Definition component_key (env : Env) (c : SourceComponent) : string :=
  getKeyFromStrings env (type_name c) (fullName c).

(** [[c.xml, ...c.walkContent()].filter((filename) => filename)] *)
Definition component_files (c : SourceComponent) : list string :=
  truthy_strings (xml c :: map Some (walkContent c)).

(** [c.fullName && c.type.name] *)
Definition named (c : SourceComponent) : bool :=
  truthy (Some (fullName c)) && truthy (Some (type_name c)).

(** The keys of those records that have one. *)
Definition keys_of (env : Env) (records : list ChangeResult) : list string :=
  flat_map (fun r => match getKeyFromObject env r with
                     | Ok k => [k]
                     | Throw _ => []
                     end) records.

(** The local components [populateFilePaths] is given for [elements]. *)
Definition local_components (env : Env) (t : SourceTracking)
    (elements : list ChangeResult) : list SourceComponent :=
  ComponentSet_fromSource env (packagesDirs t)
    (map (fun element => mkComponentLike (type element) (name element))
       elements).

(** Every entry whose record has a key is filed under that key. *)
Definition entries_keyed (env : Env) (m : JsMap ChangeResult) : Prop :=
  forall k v k', In (k, v) m -> getKeyFromObject env v = Ok k' -> k' = k.

(** The map has, under [k], a record whose own key is [k]. *)
Definition holds_key (env : Env) (m : JsMap ChangeResult) (k : string)
  : Prop :=
  exists v, map_get k m = Some v /\ getKeyFromObject env v = Ok k.

(** A record [populateFilePaths] may return for [elements] when the local
    components are [components]: an element as it came, or a record with
    [modified: true] and the files of a named component, whose other fields
    are those of an element, or are all missing when the component matched
    no element. *)
Definition annotated (elements : list ChangeResult)
    (components : list SourceComponent) (v : ChangeResult) : Prop :=
  In v elements \/
  (modified v = Some true /\
   (exists c, In c components /\ named c = true /\
              filenames v = Some (component_files c)) /\
   ((exists e, In e elements /\ origin v = origin e /\ type v = type e /\
               name v = name e /\ deleted v = deleted e) \/
    (origin v = None /\ type v = None /\ name v = None /\
     deleted v = None))).

(** An object [populateTypesAndNames] may return for [elements] when the
    resolver found [components]: it has the origin, filenames and flags of
    an element, and is that very element or a new object with the type and
    name of a named component. *)
Definition resolved_from (elements : list Obj)
    (components : list SourceComponent) (o : Obj) : Prop :=
  exists e,
    In e elements /\
    origin (snd o) = origin (snd e) /\
    filenames (snd o) = filenames (snd e) /\
    deleted (snd o) = deleted (snd e) /\
    modified (snd o) = modified (snd e) /\
    (o = e \/
     exists n c,
       fst o = Fresh n /\ In c components /\ named c = true /\
       type (snd o) = Some (type_name c) /\
       name (snd o) = Some (fullName c)).

(** ** [updateLocalTracking] *)

Record LocalUpdateOptions : Type := mkLocalUpdateOptions {
  files : option (list string);
  deletedFiles : option (list string)
}.

Section LocalLedgerWrites.

Context (env : Env).

(** [ShadowRepo.commitChanges({ deployedFiles, deletedFiles, message })]:
    the ledger as the commit leaves it.  The method belongs to
    [shared/localShadowRepo], which is not among the sources. *)
Context (commitChanges :
           ShadowRepo -> option (list string) -> option (list string) ->
           option string -> ShadowRepo).

(** [options.files?.map((file) => this.ensureRelative(file))] *)
Definition relative_paths (t : SourceTracking) (paths : option (list string))
  : option (list string) :=
  option_map (map (ensureRelative env t)) paths.

Definition updateLocalTracking (options : LocalUpdateOptions) : M unit :=
  ensureLocalTracking env ;;;
  repo <- the_localRepo ;;
  t <- get_this ;;
  put_this
    (set_localRepo
       (commitChanges repo (relative_paths t (files options))
          (relative_paths t (deletedFiles options)) None) t).

End LocalLedgerWrites.

(** The identities of the new objects held by a map. *)
Definition fresh_ids (m : JsMap Obj) : list nat :=
  flat_map (fun kv => match fst (snd kv) with
                      | Fresh j => [j]
                      | Given _ => []
                      end) m.

(** The map holds a new object under [k]. *)
Definition fresh_at (m : JsMap Obj) (k : string) : Prop :=
  exists j v, map_get k m = Some (Fresh j, v).

(** ** Calls of [ensureLocalTracking] and [ensureRemoteTracking] that
    overlap

    Both methods are [async]: a call runs up to its first [await] at once,
    and what follows each [await] runs later, when the call is resumed;
    other calls may be issued or resumed in between.  In [M] a call runs to
    its end in one piece, which is a call that is awaited before the next
    one is issued.  Here the pieces are separate steps. *)









Section Overlap.

Context (env : Env).







End Overlap.



(** ** Properties *)

Ltac run_monad :=
  unfold getChanges, getRemoteChanges, ensureLocalTracking,
    ensureRemoteTracking, the_localRepo, the_remoteSourceTrackingService,
    bind, ret, throw, lift, get_this, put_this, emit; simpl.

(** *** Keys *)

Lemma truthy_Some (v : string) : v <> "" -> truthy (Some v) = true.
Proof.
  intros Hv. simpl.
  destruct (String.eqb_spec v ""); [contradiction | reflexivity].
Qed.

Lemma getKeyFromObject_Ok (env : Env) (element : ChangeResult) :
  truthy (type element) = true -> truthy (name element) = true ->
  getKeyFromObject env element =
  Ok (getMetadataKey env (template (type element)) (template (name element))).
Proof.
  intros Ht Hn. unfold getKeyFromObject. rewrite Ht, Hn. reflexivity.
Qed.

Lemma getKeyFromObject_Throw (env : Env) (element : ChangeResult) :
  truthy (type element) = false \/ truthy (name element) = false ->
  getKeyFromObject env element =
  Throw (new_Error (msg_unable_to_complete_key element)).
Proof.
  intros H. unfold getKeyFromObject.
  destruct H as [H | H]; rewrite H; [reflexivity |].
  rewrite andb_false_r. reflexivity.
Qed.

Lemma index_by_key_stops (env : Env) (before after : list ChangeResult)
    (element : ChangeResult) (m : JsMap ChangeResult) :
  (forall e, In e before -> exists k, getKeyFromObject env e = Ok k) ->
  (truthy (type element) = false \/ truthy (name element) = false) ->
  index_by_key env (before ++ element :: after) m =
  Throw (new_Error (msg_unable_to_complete_key element)).
Proof.
  revert m. induction before as [| b before IH]; intros m Hbefore Hbad.
  - simpl. rewrite (getKeyFromObject_Throw env element Hbad). reflexivity.
  - simpl. destruct (Hbefore b (or_introl eq_refl)) as [k Hk]. rewrite Hk.
    apply IH; [| exact Hbad].
    intros e He. apply Hbefore. right. exact He.
Qed.

Lemma populateFilePaths_nonempty (env : Env) (t : SourceTracking)
    (elements : list ChangeResult) :
  elements <> [] ->
  populateFilePaths env t elements =
  let likes :=
    map (fun element => mkComponentLike (type element) (name element))
      elements in
  if Nat.ltb (ComponentSet_size env likes) (length elements)
  then Throw (incomplete_component_set elements)
  else
    match index_by_key env elements [] with
    | Throw e => Throw e
    | Ok elementMap =>
        Ok (map_values
              (fold_left (attach_filenames env)
                 (ComponentSet_fromSource env (packagesDirs t) likes)
                 elementMap))
    end.
Proof.
  intros Hne. unfold populateFilePaths.
  destruct elements as [| e rest]; [contradiction | reflexivity].
Qed.

(** C6, as the code has it: [getKeyFromObject] throws exactly when the type
    or the name is missing or empty (one of the two is enough); with a
    non-empty type and name it returns [getMetadataKey] of the two; and
    [populateFilePaths] does not catch the error: when its component set is
    large enough, the first element without a key ends the whole call with
    that element's error. *)
Theorem getKeyFromObject_throws_iff_type_or_name_missing
    (env : Env) (element : ChangeResult) :
  ((exists error, getKeyFromObject env element = Throw error) <->
   (truthy (type element) = false \/ truthy (name element) = false)) /\
  (forall t n, type element = Some t -> name element = Some n ->
     t <> "" -> n <> "" ->
     getKeyFromObject env element = Ok (getMetadataKey env t n)) /\
  (forall this before after,
     (forall e, In e before -> exists k, getKeyFromObject env e = Ok k) ->
     truthy (type element) = false \/ truthy (name element) = false ->
     length (before ++ element :: after) <=
       ComponentSet_size env
         (map (fun e => mkComponentLike (type e) (name e))
            (before ++ element :: after)) ->
     populateFilePaths env this (before ++ element :: after) =
     Throw (new_Error (msg_unable_to_complete_key element))).
Proof.
  split; [| split].
  - split.
    + intros [error Herr]. unfold getKeyFromObject in Herr.
      destruct (truthy (type element)); [| left; reflexivity].
      destruct (truthy (name element)); [discriminate | right; reflexivity].
    + intros H. eexists. apply getKeyFromObject_Throw. exact H.
  - intros t n Ht Hn Htne Hnne.
    rewrite getKeyFromObject_Ok; rewrite ?Ht, ?Hn; auto using truthy_Some.
  - intros this0 before after Hbefore Hbad Hsize.
    rewrite populateFilePaths_nonempty by (destruct before; discriminate).
    cbv zeta.
    destruct (Nat.ltb_spec
                (ComponentSet_size env
                   (map (fun e => mkComponentLike (type e) (name e))
                      (before ++ element :: after)))
                (length (before ++ element :: after))) as [Hlt | _];
      [lia |].
    rewrite (index_by_key_stops env before after element [] Hbefore Hbad).
    reflexivity.
Qed.

Lemma getKeyFromObject_throws_iff_type_or_name_missing_witness :
  getKeyFromObject Project.added_Foo (remote_change Project.Foo_changed) =
    Ok "ApexClass__Foo" /\
  populateFilePaths Project.added_Foo Project.tracking
    ([remote_change Project.Foo_changed] ++ Project.nameless :: []) =
    Throw (new_Error (msg_unable_to_complete_key Project.nameless)).
Proof.
  destruct (getKeyFromObject_throws_iff_type_or_name_missing
              Project.added_Foo (remote_change Project.Foo_changed))
    as [_ [Hkey _]].
  destruct (getKeyFromObject_throws_iff_type_or_name_missing
              Project.added_Foo Project.nameless) as [_ [_ Hbatch]].
  split.
  - apply (Hkey "ApexClass" "Foo"); [reflexivity | reflexivity | |];
      discriminate.
  - apply (Hbatch Project.tracking [remote_change Project.Foo_changed] []).
    + intros e [He | []]. subst e. exists "ApexClass__Foo". reflexivity.
    + right. reflexivity.
    + vm_compute. lia.
Defined.

(** C6, as the claim words it, fails: an element that has a type and only
    lacks its name is refused too, and inside [populateFilePaths] the error
    of that one element loses the whole batch, the well-formed first element
    included. *)
Lemma getKeyFromObject_refuses_type_without_name :
  type Project.nameless = Some "ApexClass" /\
  getKeyFromObject Project.added_Foo Project.nameless =
    Throw (new_Error (msg_unable_to_complete_key Project.nameless)) /\
  getKeyFromObject Project.added_Foo (remote_change Project.Foo_changed) =
    Ok "ApexClass__Foo" /\
  populateFilePaths Project.added_Foo Project.tracking
    [remote_change Project.Foo_changed; Project.nameless] =
    Throw (new_Error (msg_unable_to_complete_key Project.nameless)).
Proof.
  repeat split; reflexivity.
Qed.

(** *** The component set check *)

(** C3: on a non-empty input whose component set has fewer members than the
    input has elements, [populateFilePaths] throws, and the message lists
    every requested element as [name(type)]. *)
Theorem populateFilePaths_throws_on_incomplete_component_set
    (env : Env) (this : SourceTracking) (elements : list ChangeResult) :
  elements <> [] ->
  ComponentSet_size env
    (map (fun e => mkComponentLike (type e) (name e)) elements)
    < length elements ->
  populateFilePaths env this elements =
    Throw (incomplete_component_set elements) /\
  err_message (incomplete_component_set elements) =
    msg_text
      ("unable to generate complete component set for " ++
       join ","
         (map (fun e => template (name e) ++ "(" ++ template (type e) ++ ")")
            elements))%string.
Proof.
  intros Hne Hsize. split; [| reflexivity].
  rewrite populateFilePaths_nonempty by exact Hne. cbv zeta.
  destruct (Nat.ltb_spec
              (ComponentSet_size env
                 (map (fun e => mkComponentLike (type e) (name e)) elements))
              (length elements)) as [_ | Hge]; [reflexivity | lia].
Qed.

Lemma populateFilePaths_throws_on_incomplete_component_set_witness :
  populateFilePaths Project.added_Foo Project.tracking
    [remote_change Project.Foo_changed; remote_change Project.Foo_changed] =
  Throw
    (new_Error
       (msg_text
          "unable to generate complete component set for Foo(ApexClass),Foo(ApexClass)")).
Proof.
  destruct (populateFilePaths_throws_on_incomplete_component_set
              Project.added_Foo Project.tracking
              [remote_change Project.Foo_changed;
               remote_change Project.Foo_changed]) as [Hthrow _].
  - discriminate.
  - vm_compute. lia.
  - rewrite Hthrow. reflexivity.
Defined.

(** *** Lazy construction of the ledgers *)

Lemma ensureLocalTracking_loaded (env : Env) (p : Process) (r : ShadowRepo) :
  localRepo (this p) = Some r -> ensureLocalTracking env p = (Ok tt, p).
Proof.
  intros Hr. run_monad. rewrite Hr. reflexivity.
Qed.

Lemma ensureRemoteTracking_loaded (env : Env) (b : bool) (p : Process)
    (r : RemoteSourceTrackingService) :
  remoteSourceTrackingService (this p) = Some r ->
  ensureRemoteTracking env b p = (Ok tt, p).
Proof.
  intros Hr. run_monad. rewrite Hr. reflexivity.
Qed.

Lemma ensureLocalTracking_loads (env : Env) (p : Process) :
  fst (ensureLocalTracking env p) = Ok tt /\
  localRepo (this (snd (ensureLocalTracking env p))) =
    Some (local_ledger env (this p)) /\
  remoteSourceTrackingService (this (snd (ensureLocalTracking env p))) =
    remoteSourceTrackingService (this p).
Proof.
  destruct p as [t cs]. unfold local_ledger. run_monad.
  destruct (localRepo t) eqn:Hr; simpl; auto.
Qed.

Lemma ensureRemoteTracking_loads (env : Env) (b : bool) (p : Process) :
  fst (ensureRemoteTracking env b p) = Ok tt /\
  remoteSourceTrackingService (this (snd (ensureRemoteTracking env b p))) =
    Some (remote_ledger env (this p)) /\
  localRepo (this (snd (ensureRemoteTracking env b p))) = localRepo (this p).
Proof.
  destruct p as [t cs]. unfold remote_ledger. run_monad.
  destruct (remoteSourceTrackingService t) eqn:Hr; simpl; auto.
  destruct b; simpl; auto.
Qed.

Lemma repeat_call_fixed (m : M unit) (p : Process) (n : nat) :
  m p = (Ok tt, p) -> repeat_call n m p = (Ok tt, p).
Proof.
  intros Hm. induction n as [| n IH]; simpl; [reflexivity |].
  unfold bind. rewrite Hm. exact IH.
Qed.

(** Calls that are awaited one after the other: once [ensureLocalTracking]
    (or [ensureRemoteTracking]) has returned, any number of further awaited
    calls return without a call to the factory and leave the process,
    stored ledger included, as it was; the first call constructs at most
    once, and the remote one polls exactly when it constructs and
    [initializeWithQuery] is true, whatever the flag of the later calls. *)
Theorem ensure_tracking_is_lazy_and_idempotent
    (env : Env) (p : Process) (initializeWithQuery again : bool) (n : nat) :
  let p1 := snd (ensureLocalTracking env p) in
  let q1 := snd (ensureRemoteTracking env initializeWithQuery p) in
  repeat_call n (ensureLocalTracking env) p1 = (Ok tt, p1) /\
  repeat_call n (ensureRemoteTracking env again) q1 = (Ok tt, q1) /\
  calls p1 =
    calls p ++
    match localRepo (this p) with
    | Some _ => []
    | None => [call_ShadowRepo_create; call_getStatus]
    end /\
  calls q1 =
    calls p ++
    match remoteSourceTrackingService (this p) with
    | Some _ => []
    | None =>
        call_getInstance ::
        (if initializeWithQuery then [call_retrieveUpdates] else [])
    end.
Proof.
  intros p1 q1.
  destruct (ensureLocalTracking_loads env p) as [_ [Hl _]].
  destruct (ensureRemoteTracking_loads env initializeWithQuery p)
    as [_ [Hr _]].
  split; [| split; [| split]].
  - apply repeat_call_fixed.
    apply ensureLocalTracking_loaded with (r := local_ledger env (this p)).
    exact Hl.
  - apply repeat_call_fixed.
    apply ensureRemoteTracking_loaded with (r := remote_ledger env (this p)).
    exact Hr.
  - subst p1. destruct p as [t cs]. run_monad.
    destruct (localRepo t); simpl; [rewrite app_nil_r | rewrite <- app_assoc];
      reflexivity.
  - subst q1. destruct p as [t cs]. run_monad.
    destruct (remoteSourceTrackingService t); simpl;
      [rewrite app_nil_r; reflexivity |].
    destruct initializeWithQuery; simpl; [rewrite <- app_assoc |];
      reflexivity.
Qed.

(** *** [getChanges] *)

(** C9: without options, without an origin, and for the local origin with
    state [unchanged] or [moved], [getChanges] returns the empty list. *)
Theorem getChanges_empty_outside_handled_options (env : Env) (p : Process) :
  getChanges env None p = (Ok [], p) /\
  (forall state,
     getChanges env (Some (mkChangeOptions None state)) p = (Ok [], p)) /\
  fst (getChanges env
         (Some (mkChangeOptions (Some origin_local) state_unchanged)) p) =
    Ok [] /\
  fst (getChanges env
         (Some (mkChangeOptions (Some origin_local) state_moved)) p) =
    Ok [].
Proof.
  split; [reflexivity |]. split; [intros state; reflexivity |].
  destruct p as [t cs]. run_monad.
  destruct (localRepo t); split; reflexivity.
Qed.

Lemma getChanges_local (env : Env) (p : Process) :
  let repo := local_ledger env (this p) in
  fst (getChanges env
         (Some (mkChangeOptions (Some origin_local) state_changed)) p) =
    Ok (map local_change (getModifyFilenames repo)) /\
  fst (getChanges env
         (Some (mkChangeOptions (Some origin_local) state_delete)) p) =
    Ok (map local_change (getDeleteFilenames repo)) /\
  fst (getChanges env
         (Some (mkChangeOptions (Some origin_local) state_add)) p) =
    Ok (map local_change (getAddFilenames repo)).
Proof.
  destruct p as [t cs]. unfold local_ledger. run_monad.
  destruct (localRepo t) eqn:Hr; simpl; rewrite ?Hr; auto.
Qed.

Lemma getChanges_remote (env : Env) (p : Process) (state : State) :
  fst (getChanges env (Some (mkChangeOptions (Some origin_remote) state)) p) =
  Ok (map remote_change
        (filter (fun change =>
                   strict_eq_bool (rce_deleted change) (is_delete state))
           (retrieveUpdates (remote_ledger env (this p))))).
Proof.
  destruct p as [t cs]. unfold remote_ledger. run_monad.
  destruct (remoteSourceTrackingService t) eqn:Hr; simpl; rewrite ?Hr;
    reflexivity.
Qed.






(** X13: for the remote origin every state is served: a state other than
    delete ([add], [unchanged], [moved]) selects the updates flagged
    [false], exactly as [changed] does. *)
Lemma getChanges_remote_other_states (env : Env) (p : Process)
    (state : State) :
  state <> state_delete ->
  fst (getChanges env (Some (mkChangeOptions (Some origin_remote) state)) p) =
  fst (getChanges env
         (Some (mkChangeOptions (Some origin_remote) state_changed)) p).
Proof.
  intros Hs. rewrite !getChanges_remote.
  destruct state; try reflexivity. contradiction.
Qed.

(** *** Insertion-ordered maps *)

Section JsMapFacts.

Context {V : Type}.

Lemma map_get_set (k k' : string) (v : V) (m : JsMap V) :
  map_get k (map_set k' v m) =
  if String.eqb k k' then Some v else map_get k m.
Proof.
  induction m as [| [k0 v0] rest IH]; simpl.
  - destruct (String.eqb k k'); reflexivity.
  - destruct (String.eqb_spec k' k0) as [-> | Hne]; simpl.
    + destruct (String.eqb k k0); reflexivity.
    + rewrite IH. destruct (String.eqb_spec k k0) as [-> | Hne'].
      * destruct (String.eqb_spec k0 k'); [congruence | reflexivity].
      * reflexivity.
Qed.

Lemma map_get_In (k : string) (v : V) (m : JsMap V) :
  map_get k m = Some v -> In v (map_values m).
Proof.
  induction m as [| [k0 v0] rest IH]; simpl; [discriminate |].
  destruct (String.eqb k k0).
  - intros [= ->]. left. reflexivity.
  - intros H. right. apply IH. exact H.
Qed.

Lemma map_has_get (k : string) (m : JsMap V) :
  map_has k m = true -> exists v, map_get k m = Some v.
Proof.
  unfold map_has. destruct (map_get k m) as [v|]; [eauto | discriminate].
Qed.

Lemma map_values_set (k : string) (v w : V) (m : JsMap V) :
  In w (map_values (map_set k v m)) -> w = v \/ In w (map_values m).
Proof.
  induction m as [| [k0 v0] rest IH]; simpl.
  - intros [H | []]. left. symmetry. exact H.
  - destruct (String.eqb k k0); simpl.
    + intros [H | H]; [left; symmetry; exact H | right; right; exact H].
    + intros [H | H]; [right; left; exact H |].
      destruct (IH H) as [Hv | Hin]; [left; exact Hv | right; right; exact Hin].
Qed.

Lemma Forall_map_set (P : V -> Prop) (k : string) (v : V) (m : JsMap V) :
  P v -> Forall P (map_values m) -> Forall P (map_values (map_set k v m)).
Proof.
  intros Hv Hm. apply Forall_forall. intros w Hw.
  destruct (map_values_set k v w m Hw) as [-> | Hin]; [exact Hv |].
  rewrite Forall_forall in Hm. apply Hm. exact Hin.
Qed.

(** What a run of [set] calls leaves under a key: the value of one of the
    calls, or what was there before. *)
Lemma map_get_after_sets (pairs : list (string * V)) (m : JsMap V)
    (k : string) (v : V) :
  map_get k (fold_left (fun acc kv => map_set (fst kv) (snd kv) acc) pairs m)
    = Some v ->
  In (k, v) pairs \/ map_get k m = Some v.
Proof.
  revert m. induction pairs as [| [k0 v0] rest IH]; intros m; simpl.
  - intros H. right. exact H.
  - intros H. destruct (IH _ H) as [Hin | Hget].
    + left. right. exact Hin.
    + rewrite map_get_set in Hget. simpl in Hget.
      destruct (String.eqb_spec k k0) as [-> | Hne].
      * injection Hget as ->. left. left. reflexivity.
      * right. exact Hget.
Qed.

Lemma map_has_after_sets (pairs : list (string * V)) (m : JsMap V)
    (k : string) :
  map_has k (fold_left (fun acc kv => map_set (fst kv) (snd kv) acc) pairs m)
    = true <->
  In k (map fst pairs) \/ map_has k m = true.
Proof.
  revert m. induction pairs as [| [k0 v0] rest IH]; intros m; simpl.
  - split; [intros H; right; exact H | intros [[] | H]; exact H].
  - rewrite IH. unfold map_has. simpl fst. simpl snd. rewrite map_get_set.
    destruct (String.eqb_spec k k0) as [-> | Hne].
    + split; [intros _; left; left; reflexivity | intros _; right; reflexivity].
    + split.
      * intros [H | H]; [left; right; exact H | right; exact H].
      * intros [[H | H] | H];
          [symmetry in H; contradiction | left; exact H | right; exact H].
Qed.

End JsMapFacts.

(** A loop over the elements with an inner loop over each one's list is one
    loop over the pairs. *)
Lemma nested_loop_flat {A B S : Type} (step : S -> B -> A -> S)
    (inner : A -> list B) (xs : list A) (s : S) :
  fold_left (fun acc x => fold_left (fun acc y => step acc y x) (inner x) acc)
    xs s =
  fold_left (fun acc yx => step acc (fst yx) (snd yx))
    (flat_map (fun x => map (fun y => (y, x)) (inner x)) xs) s.
Proof.
  revert s. induction xs as [| x rest IH]; intros s; simpl; [reflexivity |].
  rewrite fold_left_app, IH. f_equal.
  generalize (inner x) s. intros ys. induction ys as [| y ys IHy]; intros s0;
    simpl; [reflexivity | apply IHy].
Qed.

(** *** Sets of objects *)

Lemma set_add_incl (o o' : Obj) (s : list Obj) :
  In o' (set_add o s) -> o' = o \/ In o' s.
Proof.
  unfold set_add.
  destruct (existsb (fun x => ObjId_eqb (fst o) (fst x)) s).
  - intros H. right. exact H.
  - intros H. apply in_app_or in H. destruct H as [H | [H | []]];
      [right; exact H | left; symmetry; exact H].
Qed.

Lemma new_Set_incl (values : list Obj) (o : Obj) :
  In o (new_Set values) -> In o values.
Proof.
  unfold new_Set.
  assert (Hgen : forall s, In o (fold_left (fun s x => set_add x s) values s)
                           -> In o values \/ In o s).
  { induction values as [| v rest IH]; intros s; simpl.
    - intros H. right. exact H.
    - intros H. destruct (IH _ H) as [Hin | Hin]; [left; right; exact Hin |].
      destruct (set_add_incl v o s Hin) as [-> | Hs];
        [left; left; reflexivity | right; exact Hs]. }
  intros H. destruct (Hgen [] H) as [Hin | []]. exact Hin.
Qed.

(** *** [populateTypesAndNames] *)

Lemma sets_carry (rel : string -> string) (pairs : list (string * Obj))
    (m : JsMap Obj) :
  (forall yx, In yx pairs -> carries_filename (snd yx)) ->
  Forall carries_filename (map_values m) ->
  Forall carries_filename
    (map_values
       (fold_left (fun acc yx => map_set (rel (fst yx)) (snd yx) acc)
          pairs m)).
Proof.
  revert m. induction pairs as [| yx rest IH]; intros m Hpairs Hm; simpl;
    [exact Hm |].
  apply IH.
  - intros yx' Hin. apply Hpairs. right. exact Hin.
  - apply Forall_map_set; [| exact Hm]. apply Hpairs. left. reflexivity.
Qed.

Lemma index_by_filename_carries (env : Env) (t : SourceTracking)
    (elements : list Obj) :
  Forall carries_filename (map_values (index_by_filename env t elements)).
Proof.
  unfold index_by_filename.
  rewrite (nested_loop_flat
             (fun acc filename element =>
                map_set (ensureRelative env t filename) element acc)
             (fun element => optlist (filenames (snd element)))).
  apply (sets_carry (ensureRelative env t)); [| constructor].
  intros [y x] Hin. apply in_flat_map in Hin.
  destruct Hin as [x' [_ Hin]]. apply in_map_iff in Hin.
  destruct Hin as [y' [[= <- <-] Hy]]. unfold carries_filename. simpl.
  intros Hnil. rewrite Hnil in Hy. exact Hy.
Qed.

Lemma attach_identity_carries (c : SourceComponent)
    (st : Alloc (JsMap Obj)) (filename : option string) :
  Forall carries_filename (map_values (snd st)) ->
  Forall carries_filename (map_values (snd (attach_identity c st filename))).
Proof.
  destruct st as [next m]. unfold attach_identity. simpl. intros Hm.
  destruct (truthy filename); simpl; [| exact Hm].
  destruct (map_has (template filename) m) eqn:Hhas; simpl; [| exact Hm].
  destruct (map_has_get _ _ Hhas) as [v Hv]. rewrite Hv. simpl.
  apply Forall_map_set; [| exact Hm].
  rewrite Forall_forall in Hm. apply (Hm v). eapply map_get_In. exact Hv.
Qed.

Lemma attach_identities_carries (sourceComponents : list SourceComponent)
    (st : Alloc (JsMap Obj)) :
  Forall carries_filename (map_values (snd st)) ->
  Forall carries_filename
    (map_values (snd (fold_left attach_identities sourceComponents st))).
Proof.
  revert st. induction sourceComponents as [| c rest IH]; intros st Hst;
    simpl; [exact Hst |].
  apply IH. unfold attach_identities.
  destruct (truthy (Some (fullName c)) && truthy (Some (type_name c)));
    [| exact Hst].
  revert st Hst.
  generalize (xml c :: map Some (walkContent c)). intros fs.
  induction fs as [| f fs IHf]; intros st Hst; simpl; [exact Hst |].
  apply IHf. apply attach_identity_carries. exact Hst.
Qed.

(** Every object [populateTypesAndNames] returns carries a filename. *)
Lemma populateTypesAndNames_carries (env : Env) (t : SourceTracking)
    (elements : list Obj) (excludeUnresolvable : bool) (o : Obj) :
  In o (populateTypesAndNames env t elements excludeUnresolvable) ->
  carries_filename o.
Proof.
  unfold populateTypesAndNames.
  destruct (Nat.eqb (length elements) 0); [intros [] |].
  intros Hin.
  assert (Hset : In o (new_Set
                         (map_values
                            (snd (fold_left attach_identities
                                    (resolve_components env elements)
                                    (0, index_by_filename env t elements)))))).
  { destruct excludeUnresolvable; [| exact Hin].
    apply filter_In in Hin. tauto. }
  apply new_Set_incl in Hset.
  pose proof (attach_identities_carries
                (resolve_components env elements)
                (0, index_by_filename env t elements)
                (index_by_filename_carries env t elements)) as Hall.
  rewrite Forall_forall in Hall. apply Hall. exact Hset.
Qed.

(** C10: an input element whose [filenames] is missing or empty is absent
    from the output of [populateTypesAndNames], as an object and as a value,
    whatever [excludeUnresolvable] is. *)
Theorem populateTypesAndNames_drops_elements_without_filenames
    (env : Env) (t : SourceTracking) (elements : list Obj)
    (excludeUnresolvable : bool) (element : Obj) :
  In element elements ->
  filenames (snd element) = None \/ filenames (snd element) = Some [] ->
  ~ In element (populateTypesAndNames env t elements excludeUnresolvable) /\
  ~ In (snd element)
      (map snd (populateTypesAndNames env t elements excludeUnresolvable)).
Proof.
  intros _ Hnone.
  assert (Hempty : optlist (filenames (snd element)) = [])
    by (destruct Hnone as [H | H]; rewrite H; reflexivity).
  split.
  - intros Hin. apply populateTypesAndNames_carries in Hin.
    apply Hin. exact Hempty.
  - intros Hin. apply in_map_iff in Hin. destruct Hin as [o [Ho Hin]].
    apply populateTypesAndNames_carries in Hin. apply Hin.
    rewrite Ho. exact Hempty.
Qed.

Lemma populateTypesAndNames_drops_elements_without_filenames_witness :
  let bare := (Given 1, mkChangeResult (Some origin_local) None None None
                          None None) in
  let elements := [(Given 0, local_change "classes/Foo.cls"); bare] in
  ~ In bare (populateTypesAndNames Project.added_Foo Project.tracking
               elements false) /\
  ~ In (snd bare)
      (map snd (populateTypesAndNames Project.added_Foo Project.tracking
                  elements false)).
Proof.
  intros bare elements.
  apply (populateTypesAndNames_drops_elements_without_filenames
           Project.added_Foo Project.tracking elements false bare).
  - right. left. reflexivity.
  - left. reflexivity.
Defined.

(** C7: for one change record with a single filename, no type and no name,
    whose path the resolver throws on or finds no component for,
    [populateTypesAndNames] returns the empty list when [excludeUnresolvable]
    is true and the record itself, still without type and name, when it is
    false. *)
Theorem populateTypesAndNames_unresolvable_path
    (env : Env) (t : SourceTracking) (i : ObjId) (element : ChangeResult)
    (filename : string) :
  filenames element = Some [filename] ->
  type element = None ->
  name element = None ->
  getComponentsFromPath env filename = None \/
  getComponentsFromPath env filename = Some [] ->
  populateTypesAndNames env t [(i, element)] true = [] /\
  populateTypesAndNames env t [(i, element)] false = [(i, element)] /\
  type element = None /\ name element = None.
Proof.
  intros Hf Ht Hn Hresolver.
  assert (Hnone : resolve_components env [(i, element)] = []).
  { unfold resolve_components. simpl. rewrite Hf. simpl.
    destruct Hresolver as [-> | ->]; reflexivity. }
  unfold populateTypesAndNames. simpl Nat.eqb. cbv iota. rewrite Hnone.
  unfold index_by_filename. simpl. rewrite Hf. simpl.
  unfold has_identity. simpl. rewrite Hn. simpl. auto.
Qed.

Lemma populateTypesAndNames_unresolvable_path_witness :
  populateTypesAndNames Project.added_Foo Project.tracking
    [(Given 0, local_change "classes/Bar.cls")] true = [] /\
  populateTypesAndNames Project.added_Foo Project.tracking
    [(Given 0, local_change "classes/Bar.cls")] false =
    [(Given 0, local_change "classes/Bar.cls")].
Proof.
  destruct (populateTypesAndNames_unresolvable_path Project.added_Foo
              Project.tracking (Given 0) (local_change "classes/Bar.cls")
              "classes/Bar.cls") as [Htrue [Hfalse _]];
    try reflexivity.
  - left. reflexivity.
  - split; assumption.
Defined.

(** *** [getConflicts] *)

Lemma collect_conflicts_local (fileNameIndex : JsMap ChangeResult)
    (localFilenames : list string) (st : Alloc (list Obj)) :
  fold_left
    (fun st change =>
       fold_left (add_conflict fileNameIndex) (optlist (filenames change)) st)
    (map local_change localFilenames) st =
  fold_left (add_conflict fileNameIndex) localFilenames st.
Proof.
  revert st. induction localFilenames as [| f rest IH]; intros st; simpl;
    [reflexivity | apply IH].
Qed.

Lemma set_add_new (next : nat) (v : ChangeResult) (s : list Obj) :
  Forall (made_before next) s ->
  set_add (Fresh next, v) s = s ++ [(Fresh next, v)].
Proof.
  intros Hs. unfold set_add. simpl fst.
  assert (Hnew : existsb (fun o' => ObjId_eqb (Fresh next) (fst o')) s = false).
  { induction Hs as [| o s' [k [Hk Hlt]] _ IH]; [reflexivity |].
    cbn [existsb]. rewrite IH, Hk. cbn [ObjId_eqb].
    destruct (Nat.eqb_spec next k); [lia | reflexivity]. }
  rewrite Hnew. reflexivity.
Qed.

Lemma made_before_weaken (next : nat) (s : list Obj) :
  Forall (made_before next) s -> Forall (made_before (S next)) s.
Proof.
  apply Forall_impl. intros o [k [Hk Hlt]]. exists k. split; [exact Hk | lia].
Qed.

(** No [add] is ever absorbed: every matching filename occurrence leaves a
    copy of its own in the conflict set. *)
Lemma add_conflicts_copies (fileNameIndex : JsMap ChangeResult)
    (localFilenames : list string) (next : nat) (s : list Obj) :
  Forall (made_before next) s ->
  map snd
    (snd (fold_left (add_conflict fileNameIndex) localFilenames (next, s))) =
  map snd s ++ matching_copies fileNameIndex localFilenames.
Proof.
  revert next s. unfold matching_copies.
  induction localFilenames as [| f rest IH]; intros next s Hs; simpl.
  - rewrite app_nil_r. reflexivity.
  - destruct (map_has f fileNameIndex) eqn:Hhas.
    + rewrite (set_add_new next _ s Hs). rewrite IH.
      * rewrite map_app. simpl. rewrite <- app_assoc. reflexivity.
      * apply Forall_app. split; [apply made_before_weaken; exact Hs |].
        constructor; [| constructor]. exists next. split; [reflexivity | lia].
    + apply IH. exact Hs.
Qed.

Lemma collect_conflicts_copies (fileNameIndex : JsMap ChangeResult)
    (localFilenames : list string) :
  map snd (collect_conflicts fileNameIndex (map local_change localFilenames))
  = matching_copies fileNameIndex localFilenames.
Proof.
  unfold collect_conflicts. rewrite collect_conflicts_local.
  rewrite add_conflicts_copies; [reflexivity | constructor].
Qed.

Lemma populateFilePaths_packagesDirs (env : Env) (t t' : SourceTracking)
    (elements : list ChangeResult) :
  packagesDirs t = packagesDirs t' ->
  populateFilePaths env t elements = populateFilePaths env t' elements.
Proof.
  intros H. unfold populateFilePaths. rewrite H. reflexivity.
Qed.

(** What [getConflicts] computes and which calls it makes. *)
Lemma getConflicts_run (env : Env) (p : Process) :
  fst (getConflicts env p) =
    match populateFilePaths env (this p) (remote_changed env (this p)) with
    | Throw e => Throw e
    | Ok remoteChanges =>
        Ok (matching_copies (build_fileNameIndex remoteChanges)
              (local_changed_or_added env (this p)))
    end /\
  exists made,
    calls (snd (getConflicts env p)) = calls p ++ made /\
    forallb ledger_call made = true.
Proof.
  destruct p as [t cs]. destruct t as [o pp pd u lr rs].
  unfold getConflicts, remote_changed, local_changed_or_added, remote_ledger,
    local_ledger.
  run_monad.
  destruct rs as [rs |]; destruct lr as [lr |]; simpl;
    unfold set_localRepo, set_remoteSourceTrackingService; simpl;
    repeat match goal with
    | |- context [populateFilePaths env
                    (mkSourceTracking ?a ?b ?c ?d ?l ?r) ?els] =>
        lazymatch l with
        | None => lazymatch r with None => fail | _ => idtac end
        | _ => idtac
        end;
        rewrite (populateFilePaths_packagesDirs env
                   (mkSourceTracking a b c d l r)
                   (mkSourceTracking a b c d None None) els eq_refl)
    end;
    match goal with
    | |- context [populateFilePaths env ?t0 ?els] =>
        destruct (populateFilePaths env t0 els)
    end; simpl;
    (split;
     [rewrite <- ?map_app, ?collect_conflicts_copies; reflexivity
     | eexists; split; [rewrite <- ?app_assoc; reflexivity | reflexivity]]).
Qed.

Lemma pairs_fst {A B : Type} (inner : A -> list B) (xs : list A) :
  map fst (flat_map (fun x => map (fun y => (y, x)) (inner x)) xs) =
  flat_map inner xs.
Proof.
  induction xs as [| x rest IH]; simpl; [reflexivity |].
  rewrite map_app, IH. f_equal.
  induction (inner x) as [| y ys IHy]; simpl; [reflexivity | now rewrite IHy].
Qed.

Lemma build_fileNameIndex_pairs (remoteChanges : list ChangeResult) :
  build_fileNameIndex remoteChanges =
  fold_left (fun acc yx => map_set (fst yx) (snd yx) acc)
    (flat_map (fun c => map (fun f => (f, c)) (optlist (filenames c)))
       remoteChanges) [].
Proof.
  unfold build_fileNameIndex.
  apply (nested_loop_flat
           (fun acc (f : string) (c : ChangeResult) => map_set f c acc)).
Qed.

(** The index knows exactly the filenames of the remote changes. *)
Lemma fileNameIndex_has (remoteChanges : list ChangeResult) (f : string) :
  map_has f (build_fileNameIndex remoteChanges) = true <->
  In f (all_filenames remoteChanges).
Proof.
  rewrite build_fileNameIndex_pairs, map_has_after_sets, pairs_fst.
  unfold all_filenames. split; [intros [H | H]; [exact H | discriminate] |].
  intros H. left. exact H.
Qed.

(** What the index holds under a filename is one of the remote changes, and
    one that lists the filename. *)
Lemma fileNameIndex_get (remoteChanges : list ChangeResult) (f : string)
    (c : ChangeResult) :
  map_get f (build_fileNameIndex remoteChanges) = Some c ->
  In c remoteChanges /\ In f (optlist (filenames c)).
Proof.
  rewrite build_fileNameIndex_pairs. intros H.
  apply map_get_after_sets in H. destruct H as [Hin | H]; [| discriminate].
  apply in_flat_map in Hin. destruct Hin as [c' [Hc' Hin]].
  apply in_map_iff in Hin. destruct Hin as [f' [[= <- <-] Hf]].
  split; assumption.
Qed.

Lemma filter_none {A : Type} (keep : A -> bool) (xs : list A) :
  (forall x, In x xs -> keep x = false) -> filter keep xs = [].
Proof.
  induction xs as [| x rest IH]; intros H; simpl; [reflexivity |].
  rewrite (H x (or_introl eq_refl)). apply IH.
  intros y Hy. apply H. right. exact Hy.
Qed.

Lemma filter_only {A : Type} (keep : A -> bool) (xs : list A) (a : A) :
  NoDup xs -> In a xs -> keep a = true ->
  (forall x, In x xs -> keep x = true -> x = a) ->
  filter keep xs = [a].
Proof.
  induction xs as [| x rest IH]; intros Hnd Hin Ha Honly; [destruct Hin |].
  inversion Hnd as [| ? ? Hnotin Hnd']; subst. simpl.
  destruct (keep x) eqn:Hx.
  - assert (x = a) by (apply Honly; [left; reflexivity | exact Hx]). subst x.
    f_equal. apply filter_none. intros y Hy.
    destruct (keep y) eqn:Hky; [| reflexivity].
    assert (y = a) by (apply Honly; [right; exact Hy | exact Hky]).
    subst y. contradiction.
  - destruct Hin as [-> | Hin]; [congruence |].
    apply IH; try assumption.
    intros y Hy Hky. apply Honly; [right; exact Hy | exact Hky].
Qed.

(** C2: when the remote changes resolve, [getConflicts] returns the empty
    list if no locally modified or added path is a filename of a resolved
    remote change, and exactly one entry, a remote change that lists the
    path, if the local ledger reports each path once and exactly one of its
    paths is such a filename; with [Foo.cls] added locally and [Foo] changed
    remotely the entry is the one for [Foo] of type [ApexClass]. *)
Theorem getConflicts_empty_when_disjoint_single_on_one_overlap :
  (forall (env : Env) (p : Process) (remoteChanges : list ChangeResult),
     populateFilePaths env (this p) (remote_changed env (this p)) =
       Ok remoteChanges ->
     ((forall f, In f (local_changed_or_added env (this p)) ->
                 ~ In f (all_filenames remoteChanges)) ->
      fst (getConflicts env p) = Ok []) /\
     (forall f,
        NoDup (local_changed_or_added env (this p)) ->
        In f (local_changed_or_added env (this p)) ->
        In f (all_filenames remoteChanges) ->
        (forall g, In g (local_changed_or_added env (this p)) ->
                   In g (all_filenames remoteChanges) -> g = f) ->
        exists c,
          fst (getConflicts env p) = Ok [c] /\
          In c remoteChanges /\ In f (optlist (filenames c)))) /\
  fst (getConflicts Project.added_Foo Project.start) =
    Ok [Project.Foo_conflict] /\
  name Project.Foo_conflict = Some "Foo" /\
  type Project.Foo_conflict = Some "ApexClass".
Proof.
  split; [| repeat split; reflexivity].
  intros env p remoteChanges Hresolved.
  destruct (getConflicts_run env p) as [Hrun _].
  rewrite Hresolved in Hrun. rewrite Hrun. unfold matching_copies. split.
  - intros Hdisjoint. rewrite filter_none; [reflexivity |].
    intros f Hf.
    destruct (map_has f (build_fileNameIndex remoteChanges)) eqn:Hhas;
      [| reflexivity].
    apply fileNameIndex_has in Hhas. exfalso. exact (Hdisjoint f Hf Hhas).
  - intros f Hnd Hlocal Hremote Honly.
    rewrite (filter_only _ _ f Hnd Hlocal).
    + apply fileNameIndex_has in Hremote.
      destruct (map_has_get _ _ Hremote) as [c Hc]. exists c. simpl.
      rewrite Hc. split; [reflexivity |].
      apply fileNameIndex_get with (f := f). exact Hc.
    + apply fileNameIndex_has. exact Hremote.
    + intros g Hg Hhas. apply Honly; [exact Hg |].
      apply fileNameIndex_has. exact Hhas.
Qed.

Lemma getConflicts_empty_when_disjoint_single_on_one_overlap_witness :
  (exists c,
     fst (getConflicts Project.added_Foo Project.start) = Ok [c] /\
     In c [Project.Foo_conflict] /\
     In "classes/Foo.cls" (optlist (filenames c))) /\
  fst (getConflicts Project.modified_Bar Project.start) = Ok [].
Proof.
  destruct getConflicts_empty_when_disjoint_single_on_one_overlap
    as [Hgeneral _].
  split.
  - destruct (Hgeneral Project.added_Foo Project.start [Project.Foo_conflict]
                eq_refl) as [_ Hsingle].
    apply (Hsingle "classes/Foo.cls").
    + repeat constructor. intros [].
    + left. reflexivity.
    + right. left. reflexivity.
    + intros g [<- | []] _. reflexivity.
  - destruct (Hgeneral Project.modified_Bar Project.start
                [Project.Foo_conflict] eq_refl) as [Hdisjoint _].
    apply Hdisjoint. intros f [<- | []] [H | [H | []]]; discriminate.
Defined.

(** C1 fails on the code: with both files of [Foo] modified locally, each
    of the two filenames adds its own copy of the one remote change, the set
    keeps both because it compares objects by identity, and the returned
    list holds two structurally equal conflict records. *)
Theorem getConflicts_returns_structurally_equal_conflicts :
  fst (getConflicts Project.modified_both_files Project.start) =
    Ok [Project.Foo_conflict; Project.Foo_conflict] /\
  has_structural_duplicate [Project.Foo_conflict; Project.Foo_conflict] =
    true.
Proof.
  split; reflexivity.
Qed.

(** *** The push command *)

Lemma ledger_calls_exclude_deploy (made : list Event) :
  forallb ledger_call made = true -> ~ In call_deployLocalChanges made.
Proof.
  intros Hall Hin. rewrite forallb_forall in Hall.
  specialize (Hall _ Hin). discriminate.
Qed.

(** C4, as the code has it: with [forceoverwrite] unset and a non-empty
    result of [getConflicts], the command writes the conflict table for the
    full conflicts array and throws before any deploy; what it throws is
    [new Error('conflicts detected')], whose name is [Error] and which has
    no [conflicts] property. *)
Theorem run_throws_plain_error_on_conflicts
    (env : Env) (flags : Flags) (p p1 : Process)
    (conflicts : list ChangeResult) :
  truthy_flag (forceoverwrite flags) = false ->
  getConflicts env p = (Ok conflicts, p1) ->
  conflicts <> [] ->
  exists made,
    run env flags p =
      (Throw (new_Error (msg_text "conflicts detected")),
       mkProcess (this p1)
         (calls p ++ made ++ [call_writeConflictTable conflicts])) /\
    ~ In call_deployLocalChanges
        (made ++ [call_writeConflictTable conflicts]) /\
    err_name (new_Error (msg_text "conflicts detected")) = "Error" /\
    err_conflicts (new_Error (msg_text "conflicts detected")) = None.
Proof.
  intros Hflag Hconflicts Hne.
  destruct (getConflicts_run env p) as [_ [made [Hcalls Hledger]]].
  rewrite Hconflicts in Hcalls. simpl in Hcalls.
  exists made. split; [| split; [| split; reflexivity]].
  - unfold run, bind. rewrite Hflag. simpl. unfold bind.
    rewrite Hconflicts.
    destruct conflicts as [| c rest]; [contradiction |]. simpl.
    unfold emit, throw. simpl. rewrite Hcalls, <- app_assoc. reflexivity.
  - intros Hin. apply in_app_or in Hin. destruct Hin as [Hin | [Hin | []]].
    + exact (ledger_calls_exclude_deploy made Hledger Hin).
    + discriminate.
Qed.

Lemma run_throws_plain_error_on_conflicts_witness :
  exists made p1,
    push Project.added_Foo "00D000000000001" "dev@example.com"
      "/work/project" ["/work/project/force-app"] Project.no_flags =
      (Throw (new_Error (msg_text "conflicts detected")),
       mkProcess (this p1)
         (made ++ [call_writeConflictTable [Project.Foo_conflict]])) /\
    ~ In call_deployLocalChanges
        (made ++ [call_writeConflictTable [Project.Foo_conflict]]).
Proof.
  destruct (run_throws_plain_error_on_conflicts Project.added_Foo
              Project.no_flags Project.start
              (snd (getConflicts Project.added_Foo Project.start))
              [Project.Foo_conflict])
    as [made [Hrun [Hdeploy _]]].
  - reflexivity.
  - reflexivity.
  - discriminate.
  - exists made. eexists. split; [exact Hrun | exact Hdeploy].
Defined.

(** C4, as the claim words it, fails: with [forceoverwrite] unset and one
    conflict found, what the command throws is not a [ConflictError]: its
    name is not [conflict] and it carries no conflicts array. *)
Lemma push_error_is_not_a_ConflictError :
  exists error p',
    truthy_flag (forceoverwrite Project.no_flags) = false /\
    fst (getConflicts Project.added_Foo Project.start) =
      Ok [Project.Foo_conflict] /\
    push Project.added_Foo "00D000000000001" "dev@example.com"
      "/work/project" ["/work/project/force-app"] Project.no_flags =
      (Throw error, p') /\
    err_name error <> "conflict" /\
    err_conflicts error = None /\
    ~ is_ConflictError error [Project.Foo_conflict].
Proof.
  eexists. eexists.
  split; [reflexivity |]. split; [reflexivity |]. split; [reflexivity |].
  split; [discriminate |]. split; [reflexivity |].
  intros [Hname _]. discriminate.
Qed.

(** ** Further properties *)

(** *** More on insertion-ordered maps *)

Section JsMapOrder.

Context {V : Type}.

Lemma map_has_keys (k : string) (m : JsMap V) :
  map_has k m = true <-> In k (map_keys m).
Proof.
  unfold map_has. induction m as [| [k0 v0] rest IH]; simpl.
  - split; [discriminate | intros []].
  - destruct (String.eqb_spec k k0) as [-> | Hne].
    + split; [intros _; left; reflexivity | reflexivity].
    + rewrite IH. split; [intros H; right; exact H |].
      intros [H | H]; [symmetry in H; contradiction | exact H].
Qed.

(** [set] on a present key keeps the order of the keys; on a new key it
    appends the key. *)
Lemma map_keys_set (k : string) (v : V) (m : JsMap V) :
  map_keys (map_set k v m) =
  if map_has k m then map_keys m else map_keys m ++ [k].
Proof.
  unfold map_has. induction m as [| [k0 v0] rest IH]; simpl; [reflexivity |].
  destruct (String.eqb_spec k k0) as [-> | Hne]; simpl; [reflexivity |].
  rewrite IH. destruct (map_get k rest); reflexivity.
Qed.

Lemma NoDup_map_keys_set (k : string) (v : V) (m : JsMap V) :
  NoDup (map_keys m) -> NoDup (map_keys (map_set k v m)).
Proof.
  intros Hnd. rewrite map_keys_set.
  destruct (map_has k m) eqn:Hhas; [exact Hnd |].
  apply NoDup_app; [exact Hnd | repeat constructor; intros [] |].
  intros x Hx [<- | []]. apply map_has_keys in Hx. congruence.
Qed.

Lemma map_set_entries (k k1 : string) (v v1 : V) (m : JsMap V) :
  In (k1, v1) (map_set k v m) -> (k1, v1) = (k, v) \/ In (k1, v1) m.
Proof.
  induction m as [| [k0 v0] rest IH]; simpl.
  - intros [H | []]. left. symmetry. exact H.
  - destruct (String.eqb k k0); simpl.
    + intros [H | H]; [left; symmetry; exact H | right; right; exact H].
    + intros [H | H]; [right; left; exact H |].
      destruct (IH H) as [Heq | Hin]; [left; exact Heq | right; right; exact Hin].
Qed.

Lemma map_get_entry (k : string) (v : V) (m : JsMap V) :
  map_get k m = Some v -> In (k, v) m.
Proof.
  induction m as [| [k0 v0] rest IH]; simpl; [discriminate |].
  destruct (String.eqb_spec k k0) as [-> | Hne].
  - intros [= ->]. left. reflexivity.
  - intros H. right. apply IH. exact H.
Qed.

End JsMapOrder.

(** *** [populateFilePaths]: what a successful call returns *)

Lemma attach_filenames_eq (env : Env) (m : JsMap ChangeResult)
    (c : SourceComponent) :
  attach_filenames env m c =
  if named c then
    map_set (component_key env c)
      (with_filenames (spread (map_get (component_key env c) m))
         (component_files c)) m
  else m.
Proof. reflexivity. Qed.

Lemma getKeyFromObject_with_filenames (env : Env) (x : ChangeResult)
    (fs : list string) (k : string) :
  getKeyFromObject env (with_filenames x fs) = Ok k <->
  getKeyFromObject env x = Ok k.
Proof.
  unfold getKeyFromObject. simpl.
  destruct (truthy (type x) && truthy (name x)); split; intros H;
    (exact H || discriminate).
Qed.

(** What [populateFilePaths] returns when it returns: nothing for no
    element, and otherwise the values of the map the two loops build. *)
Lemma populateFilePaths_Ok_inv (env : Env) (t : SourceTracking)
    (elements out : list ChangeResult) :
  populateFilePaths env t elements = Ok out ->
  (elements = [] /\ out = []) \/
  exists m,
    index_by_key env elements [] = Ok m /\
    out = map_values
            (fold_left (attach_filenames env)
               (local_components env t elements) m).
Proof.
  destruct elements as [| e rest].
  - intros [= <-]. left. split; reflexivity.
  - rewrite populateFilePaths_nonempty by discriminate. cbv zeta.
    destruct (Nat.ltb _ _); [discriminate |].
    destruct (index_by_key env (e :: rest) []) as [m |]; [| discriminate].
    intros [= <-]. right. exists m. split; reflexivity.
Qed.

(** An induction principle for the map of [populateFilePaths]: a property
    of the empty map that survives filing an element under its key and
    filing a named component's annotation holds of the final map. *)
Lemma populateFilePaths_map_ind (env : Env) (t : SourceTracking)
    (elements out : list ChangeResult) (P : JsMap ChangeResult -> Prop) :
  P [] ->
  (forall m k e, P m -> In e elements -> getKeyFromObject env e = Ok k ->
                 P (map_set k e m)) ->
  (forall m c, P m -> In c (local_components env t elements) ->
               named c = true ->
               P (map_set (component_key env c)
                    (with_filenames
                       (spread (map_get (component_key env c) m))
                       (component_files c)) m)) ->
  populateFilePaths env t elements = Ok out ->
  exists m, P m /\ out = map_values m.
Proof.
  intros Hnil Helement Hcomponent Hok.
  destruct (populateFilePaths_Ok_inv env t elements out Hok)
    as [[_ ->] | [m [Hindex ->]]]; [exists []; split; [exact Hnil | reflexivity] |].
  eexists. split; [| reflexivity].
  assert (Hm : P m).
  { clear Hcomponent Hok.
    assert (Hgen : forall els m0 m1,
               (forall e, In e els -> In e elements) -> P m0 ->
               index_by_key env els m0 = Ok m1 -> P m1).
    { induction els as [| e rest IH]; intros m0 m1 Hsub Hm0; simpl.
      - intros [= <-]. exact Hm0.
      - destruct (getKeyFromObject env e) as [k |] eqn:Hk; [| discriminate].
        apply IH.
        + intros e' He'. apply Hsub. right. exact He'.
        + apply Helement; [exact Hm0 | apply Hsub; left; reflexivity | exact Hk]. }
    exact (Hgen elements [] m (fun e He => He) Hnil Hindex). }
  assert (Hgen : forall cs m0,
             (forall c, In c cs -> In c (local_components env t elements)) ->
             P m0 -> P (fold_left (attach_filenames env) cs m0)).
  { induction cs as [| c rest IH]; intros m0 Hsub Hm0; simpl; [exact Hm0 |].
    apply IH; [intros c' Hc'; apply Hsub; right; exact Hc' |].
    rewrite attach_filenames_eq. destruct (named c) eqn:Hc; [| exact Hm0].
    apply Hcomponent; [exact Hm0 | apply Hsub; left; reflexivity | exact Hc]. }
  apply Hgen; [intros c Hc; exact Hc | exact Hm].
Qed.

Lemma keys_of_keyed_entries (env : Env) (m : JsMap ChangeResult) :
  entries_keyed env m -> NoDup (map_keys m) ->
  NoDup (keys_of env (map_values m)) /\
  (forall k, In k (keys_of env (map_values m)) -> In k (map_keys m)).
Proof.
  induction m as [| [k v] rest IH]; intros Hkeyed Hnd; simpl.
  - split; [constructor | intros k []].
  - inversion Hnd as [| ? ? Hnotin Hnd']; subst.
    destruct IH as [IHnd IHin]; [| exact Hnd' |].
    { intros k0 v0 k' Hin. apply Hkeyed. right. exact Hin. }
    destruct (getKeyFromObject env v) as [k' |] eqn:Hk; simpl.
    + assert (k' = k) by (apply (Hkeyed k v k'); [left; reflexivity | exact Hk]).
      subst k'. split.
      * constructor; [| exact IHnd]. intros Hin. apply Hnotin, IHin, Hin.
      * intros k0 [<- | Hin]; [left; reflexivity | right; apply IHin, Hin].
    + split; [exact IHnd | intros k0 Hin; right; apply IHin, Hin].
Qed.

(** X1: a successful [populateFilePaths] returns at most one record for
    each metadata key: the keys of the returned records that have one are
    pairwise different, however often a key was requested. *)
Theorem populateFilePaths_one_record_per_key
    (env : Env) (t : SourceTracking) (elements out : list ChangeResult) :
  populateFilePaths env t elements = Ok out ->
  NoDup (keys_of env out).
Proof.
  intros Hok.
  destruct (populateFilePaths_map_ind env t elements out
              (fun m => entries_keyed env m /\ NoDup (map_keys m)))
    as [m [[Hkeyed Hnd] ->]]; try exact Hok.
  - split; [intros k v k' [] | constructor].
  - intros m k e [Hkeyed Hnd] _ Hk. split; [| apply NoDup_map_keys_set, Hnd].
    intros k1 v1 k' Hin Hk'.
    destruct (map_set_entries _ _ _ _ _ Hin) as [[= -> ->] | Hold];
      [congruence | exact (Hkeyed _ _ _ Hold Hk')].
  - intros m c [Hkeyed Hnd] _ _. split; [| apply NoDup_map_keys_set, Hnd].
    intros k1 v1 k' Hin Hk'.
    destruct (map_set_entries _ _ _ _ _ Hin) as [[= -> ->] | Hold];
      [| exact (Hkeyed _ _ _ Hold Hk')].
    apply getKeyFromObject_with_filenames in Hk'.
    destruct (map_get (component_key env c) m) as [x |] eqn:Hget; simpl in Hk'.
    + apply (Hkeyed _ x k' (map_get_entry _ _ _ Hget) Hk').
    + discriminate.
  - apply keys_of_keyed_entries; assumption.
Qed.

Lemma populateFilePaths_one_record_per_key_witness :
  exists out,
    populateFilePaths Project.added_Foo Project.tracking
      [remote_change Project.Foo_changed;
       remote_change (mkRemoteChangeElement "Bar" "ApexClass" (Some false)
                        None)] = Ok out /\
    keys_of Project.added_Foo out = ["ApexClass__Foo"; "ApexClass__Bar"] /\
    NoDup (keys_of Project.added_Foo out).
Proof.
  eexists. split; [reflexivity |]. split; [reflexivity |].
  apply (populateFilePaths_one_record_per_key Project.added_Foo
           Project.tracking
           [remote_change Project.Foo_changed;
            remote_change (mkRemoteChangeElement "Bar" "ApexClass"
                             (Some false) None)]).
  reflexivity.
Defined.

Lemma holds_key_set (env : Env) (m : JsMap ChangeResult) (k k' : string)
    (v' : ChangeResult) :
  holds_key env m k ->
  (k = k' -> getKeyFromObject env v' = Ok k') ->
  holds_key env (map_set k' v' m) k.
Proof.
  intros [v [Hget Hkey]] Hnew. unfold holds_key. rewrite map_get_set.
  destruct (String.eqb_spec k k') as [-> | Hne].
  - exists v'. split; [reflexivity | apply Hnew; reflexivity].
  - exists v. split; assumption.
Qed.

Lemma holds_key_new (env : Env) (m : JsMap ChangeResult) (k : string)
    (v : ChangeResult) :
  getKeyFromObject env v = Ok k -> holds_key env (map_set k v m) k.
Proof.
  intros Hk. exists v. rewrite map_get_set, String.eqb_refl.
  split; [reflexivity | exact Hk].
Qed.

Lemma index_by_key_holds (env : Env) (elements : list ChangeResult)
    (m m' : JsMap ChangeResult) :
  index_by_key env elements m = Ok m' ->
  (forall k, holds_key env m k -> holds_key env m' k) /\
  (forall e, In e elements ->
     exists k, getKeyFromObject env e = Ok k /\ holds_key env m' k).
Proof.
  revert m. induction elements as [| e rest IH]; intros m; simpl.
  - intros [= <-]. split; [intros k H; exact H | intros e []].
  - destruct (getKeyFromObject env e) as [k |] eqn:Hk; [| discriminate].
    intros H. destruct (IH _ H) as [Hkeep Hall]. split.
    + intros k0 Hk0. apply Hkeep. apply holds_key_set; [exact Hk0 |].
      intros _. exact Hk.
    + intros e' [<- | Hin]; [| apply Hall; exact Hin].
      exists k. split; [exact Hk |]. apply Hkeep, holds_key_new, Hk.
Qed.

Lemma attach_filenames_holds (env : Env)
    (components : list SourceComponent) (m : JsMap ChangeResult)
    (k : string) :
  holds_key env m k ->
  holds_key env (fold_left (attach_filenames env) components m) k.
Proof.
  revert m. induction components as [| c rest IH]; intros m Hm; simpl;
    [exact Hm |].
  apply IH. rewrite attach_filenames_eq. destruct (named c); [| exact Hm].
  apply holds_key_set; [exact Hm |]. intros <-.
  destruct Hm as [v [Hget Hkey]]. rewrite Hget. simpl.
  apply getKeyFromObject_with_filenames. exact Hkey.
Qed.

(** X2: a successful [populateFilePaths] loses no requested key: every
    element has a key, and the result holds a record with that key. *)
Theorem populateFilePaths_keeps_every_key
    (env : Env) (t : SourceTracking) (elements out : list ChangeResult)
    (element : ChangeResult) :
  populateFilePaths env t elements = Ok out ->
  In element elements ->
  exists k record,
    getKeyFromObject env element = Ok k /\
    In record out /\
    getKeyFromObject env record = Ok k.
Proof.
  intros Hok Hin.
  destruct (populateFilePaths_Ok_inv env t elements out Hok)
    as [[-> _] | [m [Hindex ->]]]; [destruct Hin |].
  destruct (index_by_key_holds env elements [] m Hindex) as [_ Hall].
  destruct (Hall element Hin) as [k [Hk Hholds]].
  destruct (attach_filenames_holds env (local_components env t elements)
              m k Hholds) as [record [Hget Hrecord]].
  exists k, record. split; [exact Hk |]. split; [| exact Hrecord].
  eapply map_get_In. exact Hget.
Qed.

Lemma populateFilePaths_keeps_every_key_witness :
  exists k record,
    getKeyFromObject Project.added_Foo (remote_change Project.Foo_changed) =
      Ok k /\
    In record [Project.Foo_conflict] /\
    getKeyFromObject Project.added_Foo record = Ok k.
Proof.
  apply (populateFilePaths_keeps_every_key Project.added_Foo
           Project.tracking [remote_change Project.Foo_changed]
           [Project.Foo_conflict]).
  - reflexivity.
  - left. reflexivity.
Defined.

Lemma truthy_strings_nonempty (xs : list (option string)) (f : string) :
  In f (truthy_strings xs) -> f <> "" /\ In (Some f) xs.
Proof.
  unfold truthy_strings. intros Hin. apply in_flat_map in Hin.
  destruct Hin as [[v |] [Hx Hf]]; simpl in Hf; [| destruct Hf].
  destruct (String.eqb_spec v ""); simpl in Hf; [destruct Hf |].
  destruct Hf as [<- | []]. split; assumption.
Qed.

Lemma populateFilePaths_annotated (env : Env) (t : SourceTracking)
    (elements out : list ChangeResult) :
  populateFilePaths env t elements = Ok out ->
  Forall (annotated elements (local_components env t elements)) out.
Proof.
  intros Hok.
  destruct (populateFilePaths_map_ind env t elements out
              (fun m => Forall (annotated elements
                                  (local_components env t elements))
                          (map_values m)))
    as [m [Hall ->]]; try exact Hok; [constructor | | | exact Hall].
  - intros m k e Hm He _. apply Forall_map_set; [left; exact He | exact Hm].
  - intros m c Hm Hc Hnamed. apply Forall_map_set; [| exact Hm].
    right. split; [reflexivity |]. split; [exists c; auto |].
    destruct (map_get (component_key env c) m) as [x |] eqn:Hget; simpl;
      [| right; auto].
    rewrite Forall_forall in Hm.
    destruct (Hm x (map_get_In _ _ _ Hget)) as [Hx | [_ [_ Hfields]]];
      [left; exists x; auto | exact Hfields].
Qed.

(** X3: a successful [populateFilePaths] changes nothing but [modified]
    and [filenames]: every returned record is an element as it came, or
    carries [modified: true] and the files of a named local component, no
    empty path among them, with the origin, type, name and deleted flag of
    an element (or none of the four, when the component matched no
    element). *)
Theorem populateFilePaths_only_annotates
    (env : Env) (t : SourceTracking) (elements out : list ChangeResult)
    (record : ChangeResult) :
  populateFilePaths env t elements = Ok out ->
  In record out ->
  annotated elements (local_components env t elements) record /\
  (In record elements \/
   forall f, In f (optlist (filenames record)) -> f <> "").
Proof.
  intros Hok Hin.
  pose proof (populateFilePaths_annotated env t elements out Hok) as Hall.
  rewrite Forall_forall in Hall. pose proof (Hall record Hin) as Hrecord.
  split; [exact Hrecord |].
  destruct Hrecord as [Hx | [_ [[c [_ [_ Hfiles]]] _]]]; [left; exact Hx |].
  right. rewrite Hfiles. simpl. intros f Hf.
  apply (truthy_strings_nonempty _ f Hf).
Qed.

Lemma populateFilePaths_only_annotates_witness :
  annotated [remote_change Project.Foo_changed]
    (local_components Project.added_Foo Project.tracking
       [remote_change Project.Foo_changed]) Project.Foo_conflict /\
  (In Project.Foo_conflict [remote_change Project.Foo_changed] \/
   forall f, In f (optlist (filenames Project.Foo_conflict)) -> f <> "").
Proof.
  apply (populateFilePaths_only_annotates Project.added_Foo Project.tracking
           [remote_change Project.Foo_changed] [Project.Foo_conflict]).
  - reflexivity.
  - left. reflexivity.
Defined.

(** *** [populateFilePaths]: the record of one element *)

Lemma index_by_key_get (env : Env) (elements : list ChangeResult)
    (m m' : JsMap ChangeResult) (e : ChangeResult) (k : string) :
  index_by_key env elements m = Ok m' ->
  getKeyFromObject env e = Ok k ->
  (forall e', In e' elements -> getKeyFromObject env e' = Ok k -> e' = e) ->
  In e elements \/ map_get k m = Some e ->
  map_get k m' = Some e.
Proof.
  intros Hindex Hk. revert m Hindex.
  induction elements as [| e0 rest IH]; intros m; simpl.
  - intros [= <-] _ [[] | H]. exact H.
  - destruct (getKeyFromObject env e0) as [k0 |] eqn:Hk0; [| discriminate].
    intros Hindex Hunique Hstart.
    apply (IH _ Hindex);
      [intros e' He'; apply Hunique; right; exact He' |].
    rewrite map_get_set. destruct (String.eqb_spec k k0) as [-> | Hne].
    + right. f_equal. apply Hunique; [left; reflexivity | exact Hk0].
    + destruct Hstart as [[<- | Hin] | Hget];
        [congruence | left; exact Hin | right; exact Hget].
Qed.

Lemma attach_filenames_get_other (env : Env)
    (components : list SourceComponent) (m : JsMap ChangeResult)
    (k : string) :
  (forall c, In c components -> named c = true -> component_key env c <> k) ->
  map_get k (fold_left (attach_filenames env) components m) = map_get k m.
Proof.
  revert m. induction components as [| c rest IH]; intros m Hother; simpl;
    [reflexivity |].
  rewrite IH by (intros c' Hc'; apply Hother; right; exact Hc').
  rewrite attach_filenames_eq. destruct (named c) eqn:Hc; [| reflexivity].
  rewrite map_get_set.
  destruct (String.eqb_spec k (component_key env c)) as [-> | Hne];
    [| reflexivity].
  exfalso. exact (Hother c (or_introl eq_refl) Hc eq_refl).
Qed.

Lemma attach_filenames_get_fields (env : Env)
    (components : list SourceComponent) (m : JsMap ChangeResult)
    (k : string) (e : ChangeResult) :
  (exists x, map_get k m = Some x /\
             forall fs, with_filenames x fs = with_filenames e fs) ->
  exists x, map_get k (fold_left (attach_filenames env) components m)
              = Some x /\
            forall fs, with_filenames x fs = with_filenames e fs.
Proof.
  revert m. induction components as [| c rest IH]; intros m Hm; simpl;
    [exact Hm |].
  apply IH. rewrite attach_filenames_eq. destruct (named c); [| exact Hm].
  rewrite map_get_set.
  destruct (String.eqb_spec k (component_key env c)) as [-> | Hne];
    [| exact Hm].
  destruct Hm as [x [Hget Hsame]]. rewrite Hget. simpl.
  eexists. split; [reflexivity |]. intros fs.
  rewrite <- (Hsame fs). reflexivity.
Qed.

(** X4: when a call of [populateFilePaths] succeeds and an element is the
    only one with its key, the result holds the element untouched if no
    named local component has that key, and otherwise the element with
    [modified: true] and the files of the last such component. *)
Theorem populateFilePaths_record_of_element
    (env : Env) (t : SourceTracking) (elements out : list ChangeResult)
    (element : ChangeResult) (k : string) :
  populateFilePaths env t elements = Ok out ->
  In element elements ->
  getKeyFromObject env element = Ok k ->
  (forall e', In e' elements -> getKeyFromObject env e' = Ok k ->
              e' = element) ->
  ((forall c, In c (local_components env t elements) -> named c = true ->
              component_key env c <> k) ->
   In element out) /\
  (forall before c after,
     local_components env t elements = before ++ c :: after ->
     named c = true -> component_key env c = k ->
     (forall c', In c' after -> named c' = true ->
                 component_key env c' <> k) ->
     In (with_filenames element (component_files c)) out).
Proof.
  intros Hok Hin Hk Hunique.
  destruct (populateFilePaths_Ok_inv env t elements out Hok)
    as [[-> _] | [m [Hindex ->]]]; [destruct Hin |].
  pose proof (index_by_key_get env elements [] m element k Hindex Hk Hunique
                (or_introl Hin)) as Hget.
  split.
  - intros Hnone. apply (map_get_In k).
    rewrite attach_filenames_get_other by exact Hnone. exact Hget.
  - intros before c after Hsplit Hnamed Hkey Hafter. apply (map_get_In k).
    rewrite Hsplit, fold_left_app. simpl.
    rewrite attach_filenames_get_other by exact Hafter.
    rewrite attach_filenames_eq, Hnamed, Hkey, map_get_set, String.eqb_refl.
    destruct (attach_filenames_get_fields env before m k element)
      as [x [Hx Hsame]]; [exists element; split; [exact Hget | reflexivity] |].
    rewrite Hx. simpl. rewrite Hsame. reflexivity.
Qed.

Lemma populateFilePaths_record_of_element_witness :
  In (remote_change (mkRemoteChangeElement "Bar" "ApexClass" (Some false)
                       None))
    [Project.Foo_conflict;
     remote_change (mkRemoteChangeElement "Bar" "ApexClass" (Some false)
                      None)] /\
  In (with_filenames (remote_change Project.Foo_changed)
        (component_files Project.Foo))
    [Project.Foo_conflict;
     remote_change (mkRemoteChangeElement "Bar" "ApexClass" (Some false)
                      None)].
Proof.
  pose (Bar := remote_change (mkRemoteChangeElement "Bar" "ApexClass"
                                (Some false) None)).
  pose (elements := [remote_change Project.Foo_changed; Bar]).
  split.
  - destruct (populateFilePaths_record_of_element Project.added_Foo
                Project.tracking elements [Project.Foo_conflict; Bar] Bar
                "ApexClass__Bar") as [Huntouched _].
    + reflexivity.
    + right. left. reflexivity.
    + reflexivity.
    + intros e' [<- | [<- | []]] He'; [discriminate | reflexivity].
    + apply Huntouched. intros c [<- | []] _. discriminate.
  - destruct (populateFilePaths_record_of_element Project.added_Foo
                Project.tracking elements [Project.Foo_conflict; Bar]
                (remote_change Project.Foo_changed) "ApexClass__Foo")
      as [_ Hattached].
    + reflexivity.
    + left. reflexivity.
    + reflexivity.
    + intros e' [<- | [<- | []]] He'; [reflexivity | discriminate].
    + apply (Hattached [] Project.Foo []);
        [reflexivity | reflexivity | reflexivity | intros c' []].
Defined.

(** *** [getConflicts]: which conflicts, how many, and at what cost *)

Lemma In_matching_copies (fileNameIndex : JsMap ChangeResult)
    (localFilenames : list string) (c : ChangeResult) :
  In c (matching_copies fileNameIndex localFilenames) <->
  exists f, In f localFilenames /\ map_get f fileNameIndex = Some c.
Proof.
  unfold matching_copies. rewrite in_map_iff. split.
  - intros [f [Hc Hf]]. apply filter_In in Hf. destruct Hf as [Hf Hhas].
    destruct (map_has_get _ _ Hhas) as [v Hv]. rewrite Hv in Hc.
    simpl in Hc. subst v. exists f. split; assumption.
  - intros [f [Hf Hget]]. exists f. rewrite Hget. split; [reflexivity |].
    apply filter_In. split; [exact Hf |]. unfold map_has. rewrite Hget.
    reflexivity.
Qed.

Lemma remote_changed_no_filenames (env : Env) (t : SourceTracking)
    (r : ChangeResult) :
  In r (remote_changed env t) -> filenames r = None.
Proof.
  unfold remote_changed. intros Hin. apply in_map_iff in Hin.
  destruct Hin as [u [<- _]]. reflexivity.
Qed.

(** X5: every conflict [getConflicts] returns is one of the resolved remote
    changes, lists a path the local ledger reports as modified or added,
    and got its paths from a named local component; a remote change with no
    local component is never a conflict. *)
Theorem getConflicts_returns_only_shared_paths
    (env : Env) (p : Process) (remoteChanges conflicts : list ChangeResult)
    (c : ChangeResult) :
  populateFilePaths env (this p) (remote_changed env (this p)) =
    Ok remoteChanges ->
  fst (getConflicts env p) = Ok conflicts ->
  In c conflicts ->
  In c remoteChanges /\
  (exists f, In f (local_changed_or_added env (this p)) /\
             In f (optlist (filenames c))) /\
  modified c = Some true /\
  (exists component,
     In component
       (local_components env (this p) (remote_changed env (this p))) /\
     named component = true /\
     filenames c = Some (component_files component)).
Proof.
  intros Hresolved Hconflicts Hin.
  destruct (getConflicts_run env p) as [Hrun _].
  rewrite Hresolved, Hconflicts in Hrun. injection Hrun as ->.
  apply In_matching_copies in Hin. destruct Hin as [f [Hf Hget]].
  destruct (fileNameIndex_get _ _ _ Hget) as [Hc Hfc].
  split; [exact Hc |]. split; [exists f; split; assumption |].
  pose proof (populateFilePaths_annotated _ _ _ _ Hresolved) as Hall.
  rewrite Forall_forall in Hall.
  destruct (Hall c Hc) as [Hplain | [Hmod [Hcomponent _]]].
  - rewrite (remote_changed_no_filenames _ _ _ Hplain) in Hfc. destruct Hfc.
  - split; [exact Hmod | exact Hcomponent].
Qed.

Lemma getConflicts_returns_only_shared_paths_witness :
  In Project.Foo_conflict [Project.Foo_conflict] /\
  (exists f, In f (local_changed_or_added Project.added_Foo
                     (this Project.start)) /\
             In f (optlist (filenames Project.Foo_conflict))) /\
  modified Project.Foo_conflict = Some true /\
  (exists component,
     In component
       (local_components Project.added_Foo (this Project.start)
          (remote_changed Project.added_Foo (this Project.start))) /\
     named component = true /\
     filenames Project.Foo_conflict = Some (component_files component)).
Proof.
  apply (getConflicts_returns_only_shared_paths Project.added_Foo
           Project.start [Project.Foo_conflict] [Project.Foo_conflict]).
  - reflexivity.
  - reflexivity.
  - left. reflexivity.
Defined.

(** X6: when the remote changes resolve, [getConflicts] returns one entry
    for each occurrence of a locally modified or added path among the
    resolved remote filenames, no more and no fewer, and every such path is
    listed by one of the entries. *)
Theorem getConflicts_one_entry_per_shared_path_occurrence
    (env : Env) (p : Process) (remoteChanges : list ChangeResult) :
  populateFilePaths env (this p) (remote_changed env (this p)) =
    Ok remoteChanges ->
  exists conflicts,
    fst (getConflicts env p) = Ok conflicts /\
    length conflicts =
      length (filter
                (fun f => existsb (String.eqb f) (all_filenames remoteChanges))
                (local_changed_or_added env (this p))) /\
    (forall f, In f (local_changed_or_added env (this p)) ->
               In f (all_filenames remoteChanges) ->
               exists c, In c conflicts /\ In f (optlist (filenames c))).
Proof.
  intros Hresolved. destruct (getConflicts_run env p) as [Hrun _].
  rewrite Hresolved in Hrun. eexists. split; [exact Hrun |]. split.
  - unfold matching_copies. rewrite length_map. f_equal.
    apply filter_ext. intros f.
    destruct (map_has f (build_fileNameIndex remoteChanges)) eqn:Hhas.
    + symmetry. apply existsb_exists. exists f.
      split; [apply fileNameIndex_has; exact Hhas | apply String.eqb_refl].
    + symmetry. apply not_true_is_false. intros Hex.
      apply existsb_exists in Hex. destruct Hex as [g [Hg Hfg]].
      apply String.eqb_eq in Hfg. subst g.
      apply fileNameIndex_has in Hg. congruence.
  - intros f Hlocal Hremote. apply fileNameIndex_has in Hremote.
    destruct (map_has_get _ _ Hremote) as [c Hc]. exists c. split.
    + apply In_matching_copies. exists f. split; assumption.
    + apply (fileNameIndex_get _ _ _ Hc).
Qed.

Lemma getConflicts_one_entry_per_shared_path_occurrence_witness :
  exists conflicts,
    fst (getConflicts Project.modified_both_files Project.start) =
      Ok conflicts /\
    length conflicts = 2.
Proof.
  destruct (getConflicts_one_entry_per_shared_path_occurrence
              Project.modified_both_files Project.start
              [Project.Foo_conflict] eq_refl)
    as [conflicts [Hrun [Hlength _]]].
  exists conflicts. split; [exact Hrun | exact Hlength].
Defined.

(** X7: whatever it returns, [getConflicts] leaves both ledgers loaded,
    constructs each of them only if it was not loaded yet, the remote one
    first, and polls the remote ledger exactly once; an error of
    [populateFilePaths] is the error of [getConflicts]. *)
Theorem getConflicts_loads_both_ledgers_and_polls_once
    (env : Env) (p : Process) :
  localRepo (this (snd (getConflicts env p))) =
    Some (local_ledger env (this p)) /\
  remoteSourceTrackingService (this (snd (getConflicts env p))) =
    Some (remote_ledger env (this p)) /\
  calls (snd (getConflicts env p)) =
    calls p ++
    match remoteSourceTrackingService (this p) with
    | Some _ => []
    | None => [call_getInstance]
    end ++
    match localRepo (this p) with
    | Some _ => []
    | None => [call_ShadowRepo_create; call_getStatus]
    end ++
    [call_retrieveUpdates] /\
  (forall e,
     populateFilePaths env (this p) (remote_changed env (this p)) = Throw e ->
     fst (getConflicts env p) = Throw e).
Proof.
  split; [| split; [| split]];
    [| | | intros e He; destruct (getConflicts_run env p) as [Hrun _];
           rewrite He in Hrun; exact Hrun];
    destruct p as [t cs]; destruct t as [o pp pd u lr rs];
    unfold getConflicts, local_ledger, remote_ledger; run_monad;
    destruct rs as [rs |]; destruct lr as [lr |]; simpl;
    unfold set_localRepo, set_remoteSourceTrackingService; simpl;
    match goal with
    | |- context [populateFilePaths env ?t0 ?els] =>
        destruct (populateFilePaths env t0 els)
    end; simpl; rewrite <- ?app_assoc; reflexivity.
Qed.

(** X8: [getConflicts] looks at nothing but the package directories, the
    paths the local ledger reports as modified or added and the remote
    updates flagged [deleted: false]: two processes that agree on these get
    the same answer, whatever the local ledger reports as deleted and
    whatever remote updates are flagged deleted or unflagged. *)
Theorem getConflicts_ignores_deletions (env : Env) (p p' : Process) :
  packagesDirs (this p) = packagesDirs (this p') ->
  getModifyFilenames (local_ledger env (this p)) =
    getModifyFilenames (local_ledger env (this p')) ->
  getAddFilenames (local_ledger env (this p)) =
    getAddFilenames (local_ledger env (this p')) ->
  filter (fun u => strict_eq_bool (rce_deleted u) false)
    (retrieveUpdates (remote_ledger env (this p))) =
  filter (fun u => strict_eq_bool (rce_deleted u) false)
    (retrieveUpdates (remote_ledger env (this p'))) ->
  fst (getConflicts env p) = fst (getConflicts env p').
Proof.
  intros Hdirs Hmodify Hadd Hupdates.
  destruct (getConflicts_run env p) as [-> _].
  destruct (getConflicts_run env p') as [-> _].
  unfold remote_changed, local_changed_or_added.
  rewrite Hmodify, Hadd, Hupdates.
  rewrite (populateFilePaths_packagesDirs env (this p) (this p') _ Hdirs).
  reflexivity.
Qed.

Lemma getConflicts_ignores_deletions_witness :
  let loaded repo service :=
    mkProcess (set_localRepo repo
                 (set_remoteSourceTrackingService service Project.tracking))
      [] in
  fst (getConflicts Project.added_Foo
         (loaded (mkShadowRepo [] [] ["classes/Foo.cls"])
            (mkRemoteSourceTrackingService [Project.Foo_changed]))) =
  fst (getConflicts Project.added_Foo
         (loaded (mkShadowRepo [] ["classes/Old.cls"] ["classes/Foo.cls"])
            (mkRemoteSourceTrackingService
               [mkRemoteChangeElement "Old" "ApexClass" (Some true) None;
                Project.Foo_changed;
                Project.Foo_unflagged]))).
Proof.
  intros loaded.
  apply (getConflicts_ignores_deletions Project.added_Foo); reflexivity.
Defined.

(** X9: when no local component matches the remote changes (they are all
    remote additions, say), [getConflicts] reports no conflict, whatever
    changed locally. *)
Theorem getConflicts_empty_without_local_components
    (env : Env) (p : Process) :
  local_components env (this p) (remote_changed env (this p)) = [] ->
  fst (getConflicts env p) =
  match populateFilePaths env (this p) (remote_changed env (this p)) with
  | Ok _ => Ok []
  | Throw e => Throw e
  end.
Proof.
  intros Hnone. destruct (getConflicts_run env p) as [-> _].
  destruct (populateFilePaths env (this p) (remote_changed env (this p)))
    as [remoteChanges |] eqn:Hresolved; [| reflexivity].
  f_equal. unfold matching_copies. rewrite filter_none; [reflexivity |].
  intros f _.
  destruct (map_has f (build_fileNameIndex remoteChanges)) eqn:Hhas;
    [| reflexivity].
  apply fileNameIndex_has in Hhas. unfold all_filenames in Hhas.
  apply in_flat_map in Hhas. destruct Hhas as [c [Hc Hf]].
  pose proof (populateFilePaths_annotated _ _ _ _ Hresolved) as Hall.
  rewrite Forall_forall in Hall.
  destruct (Hall c Hc) as [Hplain | [_ [[component [Hin _]] _]]].
  - rewrite (remote_changed_no_filenames _ _ _ Hplain) in Hf. destruct Hf.
  - rewrite Hnone in Hin. destruct Hin.
Qed.

Lemma getConflicts_empty_without_local_components_witness :
  let remote_only :=
    Project.env (mkShadowRepo ["classes/Foo.cls"] [] ["classes/Baz.cls"])
      (mkRemoteSourceTrackingService
         [mkRemoteChangeElement "Baz" "ApexClass" (Some false) None]) in
  fst (getConflicts remote_only Project.start) = Ok [].
Proof.
  intros remote_only.
  exact (getConflicts_empty_without_local_components remote_only
           Project.start eq_refl).
Defined.

Lemma getConflicts_loads_both_ledgers_and_polls_once_witness :
  let twice :=
    Project.env (mkShadowRepo [] [] [])
      (mkRemoteSourceTrackingService
         [Project.Foo_changed; Project.Foo_changed]) in
  fst (getConflicts twice Project.start) =
    Throw (incomplete_component_set
             [remote_change Project.Foo_changed;
              remote_change Project.Foo_changed]) /\
  calls (snd (getConflicts twice Project.start)) =
    [call_getInstance; call_ShadowRepo_create; call_getStatus;
     call_retrieveUpdates].
Proof.
  intros twice.
  destruct (getConflicts_loads_both_ledgers_and_polls_once twice
              Project.start) as [_ [_ [Hcalls Hthrow]]].
  split; [apply Hthrow; reflexivity | exact Hcalls].
Defined.

(** *** [getChanges]: the local origin, and which ledger a call touches *)

Lemma all_filenames_local (paths : list string) :
  all_filenames (map local_change paths) = paths.
Proof.
  unfold all_filenames. induction paths as [| f rest IH]; simpl;
    [reflexivity | now rewrite IH].
Qed.

(** The list of the local ledger that a state selects. *)
Lemma getChanges_local_state (env : Env) (p : Process) (state : State)
    (paths : list string) :
  (state = state_changed /\
   paths = getModifyFilenames (local_ledger env (this p))) \/
  (state = state_delete /\
   paths = getDeleteFilenames (local_ledger env (this p))) \/
  (state = state_add /\
   paths = getAddFilenames (local_ledger env (this p))) ->
  fst (getChanges env (Some (mkChangeOptions (Some origin_local) state)) p) =
  Ok (map local_change paths).
Proof.
  destruct (getChanges_local env p) as [Hc [Hd Ha]].
  intros [[-> ->] | [[-> ->] | [-> ->]]]; assumption.
Qed.

(** X10: for the local origin and state changed, delete or add,
    [getChanges] returns one record for each path of the ledger's list, in
    the ledger's order: reading the filenames off the records gives the
    list back, and every record has origin local, one filename and no
    type, name or flag. *)
Theorem getChanges_local_wraps_each_path
    (env : Env) (p : Process) (state : State) (paths : list string) :
  (state = state_changed /\
   paths = getModifyFilenames (local_ledger env (this p))) \/
  (state = state_delete /\
   paths = getDeleteFilenames (local_ledger env (this p))) \/
  (state = state_add /\
   paths = getAddFilenames (local_ledger env (this p))) ->
  exists records,
    fst (getChanges env
           (Some (mkChangeOptions (Some origin_local) state)) p) =
      Ok records /\
    all_filenames records = paths /\
    length records = length paths /\
    (forall r, In r records ->
       origin r = Some origin_local /\ type r = None /\ name r = None /\
       deleted r = None /\ modified r = None /\
       exists f, In f paths /\ filenames r = Some [f]).
Proof.
  intros Hstate. exists (map local_change paths).
  split; [apply getChanges_local_state; exact Hstate |].
  split; [apply all_filenames_local |]. split; [apply length_map |].
  intros r Hr. apply in_map_iff in Hr. destruct Hr as [f [<- Hf]].
  repeat split. exists f. split; [exact Hf | reflexivity].
Qed.

Lemma getChanges_local_wraps_each_path_witness :
  exists records,
    fst (getChanges Project.modified_both_files
           (Some (mkChangeOptions (Some origin_local) state_changed))
           Project.start) = Ok records /\
    all_filenames records = ["classes/Foo.cls"; "classes/Foo.cls-meta.xml"].
Proof.
  destruct (getChanges_local_wraps_each_path Project.modified_both_files
              Project.start state_changed
              ["classes/Foo.cls"; "classes/Foo.cls-meta.xml"])
    as [records [Hrun [Hnames _]]].
  - left. split; reflexivity.
  - exists records. split; assumption.
Defined.


Lemma length_filter_flags (updates : list RemoteChangeElement) :
  length (filter (fun u => strict_eq_bool (rce_deleted u) true) updates) +
  length (filter (fun u => strict_eq_bool (rce_deleted u) false) updates) +
  length (filter (fun u => match rce_deleted u with
                           | None => true
                           | Some _ => false
                           end) updates) =
  length updates.
Proof.
  induction updates as [| u rest IH]; simpl; [reflexivity |].
  destruct (rce_deleted u) as [[|] |]; simpl; lia.
Qed.

(** X12: [getRemoteChanges] returns every update of the remote ledger, and
    [getChanges] for the remote origin selects from them: each update is
    counted exactly once among the delete result, the changed result and
    the updates without a [deleted] flag, and every record of the two
    results is one of the updates with origin remote added. *)
Theorem getChanges_remote_partitions_getRemoteChanges
    (env : Env) (p : Process) :
  exists updates deletes changes,
    fst (getRemoteChanges env p) = Ok updates /\
    fst (getChanges env
           (Some (mkChangeOptions (Some origin_remote) state_delete)) p) =
      Ok deletes /\
    fst (getChanges env
           (Some (mkChangeOptions (Some origin_remote) state_changed)) p) =
      Ok changes /\
    length deletes + length changes +
      length (filter (fun u => match rce_deleted u with
                               | None => true
                               | Some _ => false
                               end) updates) = length updates /\
    (forall r, In r (deletes ++ changes) ->
       exists u, In u updates /\ r = remote_change u).
Proof.
  exists (retrieveUpdates (remote_ledger env (this p))).
  eexists. eexists.
  split; [| split; [apply getChanges_remote |
                    split; [apply getChanges_remote |]]].
  - destruct p as [t cs]. unfold remote_ledger. run_monad.
    destruct (remoteSourceTrackingService t) eqn:Hr; simpl; rewrite ?Hr;
      reflexivity.
  - split.
    + rewrite !length_map. apply length_filter_flags.
    + intros r Hr. apply in_app_or in Hr.
      destruct Hr as [Hr | Hr]; apply in_map_iff in Hr;
        destruct Hr as [u [<- Hu]]; apply filter_In in Hu;
        exists u; split; tauto.
Qed.

Lemma getChanges_remote_partitions_getRemoteChanges_witness :
  exists updates changes,
    fst (getRemoteChanges Project.unflagged_update Project.start) =
      Ok updates /\
    fst (getChanges Project.unflagged_update
           (Some (mkChangeOptions (Some origin_remote) state_changed))
           Project.start) = Ok changes /\
    length updates = 1 /\ length changes = 0.
Proof.
  destruct (getChanges_remote_partitions_getRemoteChanges
              Project.unflagged_update Project.start)
    as [updates [deletes [changes [Hall [_ [Hchanged _]]]]]].
  exists updates, changes. split; [exact Hall |]. split; [exact Hchanged |].
  split.
  - assert (H : fst (getRemoteChanges Project.unflagged_update Project.start)
                = Ok [Project.Foo_unflagged]) by reflexivity.
    rewrite Hall in H. injection H as ->. reflexivity.
  - assert (H : fst (getChanges Project.unflagged_update
                       (Some (mkChangeOptions (Some origin_remote)
                                state_changed)) Project.start) = Ok [])
      by reflexivity.
    rewrite Hchanged in H. injection H as ->. reflexivity.
Defined.

Lemma getChanges_remote_other_states_witness :
  fst (getChanges Project.added_Foo
         (Some (mkChangeOptions (Some origin_remote) state_add))
         Project.start) =
  fst (getChanges Project.added_Foo
         (Some (mkChangeOptions (Some origin_remote) state_changed))
         Project.start).
Proof.
  apply (getChanges_remote_other_states Project.added_Foo Project.start
           state_add).
  discriminate.
Defined.

(** *** [populateTypesAndNames]: what it returns *)

Lemma sets_Forall {V : Type} (P : V -> Prop) (rel : string -> string)
    (pairs : list (string * V)) (m : JsMap V) :
  (forall yx, In yx pairs -> P (snd yx)) ->
  Forall P (map_values m) ->
  Forall P
    (map_values
       (fold_left (fun acc yx => map_set (rel (fst yx)) (snd yx) acc)
          pairs m)).
Proof.
  revert m. induction pairs as [| yx rest IH]; intros m Hpairs Hm; simpl;
    [exact Hm |].
  apply IH.
  - intros yx' Hin. apply Hpairs. right. exact Hin.
  - apply Forall_map_set; [| exact Hm]. apply Hpairs. left. reflexivity.
Qed.

Lemma index_by_filename_Forall (env : Env) (t : SourceTracking)
    (elements : list Obj) (P : Obj -> Prop) :
  (forall e, In e elements -> P e) ->
  Forall P (map_values (index_by_filename env t elements)).
Proof.
  intros HP. unfold index_by_filename.
  rewrite (nested_loop_flat
             (fun acc filename element =>
                map_set (ensureRelative env t filename) element acc)
             (fun element => optlist (filenames (snd element)))).
  apply (sets_Forall P (ensureRelative env t)); [| constructor].
  intros [y x] Hin. apply in_flat_map in Hin.
  destruct Hin as [x' [Hx' Hin]]. apply in_map_iff in Hin.
  destruct Hin as [y' [[= <- <-] _]]. apply HP. exact Hx'.
Qed.

Lemma attach_identities_Forall (P : Obj -> Prop)
    (components : list SourceComponent) (st : Alloc (JsMap Obj)) :
  (forall c n v, In c components -> named c = true -> P v ->
     P (Fresh n, with_identity (snd v) (type_name c) (fullName c))) ->
  Forall P (map_values (snd st)) ->
  Forall P (map_values (snd (fold_left attach_identities components st))).
Proof.
  revert st. induction components as [| c rest IH]; intros st Hstep Hst;
    simpl; [exact Hst |].
  apply IH; [intros c' n v Hc'; apply Hstep; right; exact Hc' |].
  unfold attach_identities. fold (named c).
  destruct (named c) eqn:Hc; [| exact Hst].
  revert st Hst. generalize (xml c :: map Some (walkContent c)).
  intros fs. induction fs as [| f fs IHf]; intros st Hst; simpl;
    [exact Hst |].
  apply IHf. destruct st as [next m]. unfold attach_identity. simpl in *.
  destruct (truthy f); simpl; [| exact Hst].
  destruct (map_has (template f) m) eqn:Hhas; simpl; [| exact Hst].
  destruct (map_has_get _ _ Hhas) as [v Hv]. rewrite Hv. simpl.
  apply Forall_map_set; [| exact Hst].
  apply Hstep; [left; reflexivity | exact Hc |].
  rewrite Forall_forall in Hst. apply Hst. eapply map_get_In. exact Hv.
Qed.

(** An induction principle for the output of [populateTypesAndNames]: a
    property of the elements that survives giving an object the type and
    name of a resolved component holds of every object returned. *)
Lemma populateTypesAndNames_ind (env : Env) (t : SourceTracking)
    (elements : list Obj) (excludeUnresolvable : bool) (P : Obj -> Prop) :
  (forall e, In e elements -> P e) ->
  (forall c n v, In c (resolve_components env elements) -> named c = true ->
     P v -> P (Fresh n, with_identity (snd v) (type_name c) (fullName c))) ->
  forall o, In o (populateTypesAndNames env t elements excludeUnresolvable)
            -> P o.
Proof.
  intros Helements Hstep o. unfold populateTypesAndNames.
  destruct (Nat.eqb (length elements) 0); [intros [] |].
  intros Hin.
  assert (Hset : In o (new_Set
                         (map_values
                            (snd (fold_left attach_identities
                                    (resolve_components env elements)
                                    (0, index_by_filename env t elements)))))).
  { destruct excludeUnresolvable; [| exact Hin].
    apply filter_In in Hin. tauto. }
  apply new_Set_incl in Hset.
  pose proof (attach_identities_Forall P
                (resolve_components env elements)
                (0, index_by_filename env t elements) Hstep
                (index_by_filename_Forall env t elements P Helements))
    as Hall.
  rewrite Forall_forall in Hall. apply Hall. exact Hset.
Qed.

(** X14: [populateTypesAndNames] touches nothing but the type and the
    name: every object it returns has the origin, the filenames and the
    flags of an input element, and is either that element itself or a new
    object carrying the type and name of a component the resolver found for
    one of the input's filenames. *)
Theorem populateTypesAndNames_only_sets_type_and_name
    (env : Env) (t : SourceTracking) (elements : list Obj)
    (excludeUnresolvable : bool) (o : Obj) :
  In o (populateTypesAndNames env t elements excludeUnresolvable) ->
  resolved_from elements (resolve_components env elements) o.
Proof.
  apply populateTypesAndNames_ind.
  - intros e He. exists e. repeat split; auto.
  - intros c n v Hc Hnamed [e [He [Ho [Hf [Hd [Hm _]]]]]].
    exists e. simpl. repeat split; auto.
    right. exists n, c. auto.
Qed.

Lemma populateTypesAndNames_only_sets_type_and_name_witness :
  resolved_from [(Given 0, local_change "classes/Foo.cls")]
    (resolve_components Project.added_Foo
       [(Given 0, local_change "classes/Foo.cls")])
    (Fresh 0,
     with_identity (local_change "classes/Foo.cls") "ApexClass" "Foo").
Proof.
  apply (populateTypesAndNames_only_sets_type_and_name Project.added_Foo
           Project.tracking [(Given 0, local_change "classes/Foo.cls")]
           false).
  left. reflexivity.
Defined.

Lemma ObjId_eqb_refl (a : ObjId) : ObjId_eqb a a = true.
Proof. destruct a; simpl; apply Nat.eqb_refl. Qed.

Lemma set_add_NoDup (o : Obj) (s : list Obj) :
  NoDup (map fst s) -> NoDup (map fst (set_add o s)).
Proof.
  intros Hnd. unfold set_add.
  destruct (existsb (fun o' => ObjId_eqb (fst o) (fst o')) s) eqn:Hex;
    [exact Hnd |].
  rewrite map_app. apply NoDup_app;
    [exact Hnd | repeat constructor; intros [] |].
  intros i Hi [<- | []]. apply in_map_iff in Hi.
  destruct Hi as [o' [Hid Ho']].
  assert (Htrue : existsb (fun o' => ObjId_eqb (fst o) (fst o')) s = true).
  { apply existsb_exists. exists o'. split; [exact Ho' |].
    rewrite Hid. apply ObjId_eqb_refl. }
  congruence.
Qed.

Lemma new_Set_NoDup (values : list Obj) : NoDup (map fst (new_Set values)).
Proof.
  unfold new_Set.
  assert (Hgen : forall s, NoDup (map fst s) ->
                           NoDup (map fst (fold_left (fun s o => set_add o s)
                                             values s))).
  { induction values as [| v rest IH]; intros s Hs; simpl; [exact Hs |].
    apply IH, set_add_NoDup, Hs. }
  apply Hgen. constructor.
Qed.

Lemma filter_NoDup_fst (keep : Obj -> bool) (s : list Obj) :
  NoDup (map fst s) -> NoDup (map fst (filter keep s)).
Proof.
  induction s as [| o rest IH]; simpl; [intros H; exact H |].
  intros Hnd. inversion Hnd as [| ? ? Hnotin Hnd']; subst.
  destruct (keep o); simpl; [| apply IH; exact Hnd'].
  constructor; [| apply IH; exact Hnd'].
  intros Hin. apply Hnotin. apply in_map_iff in Hin.
  destruct Hin as [o' [Hid Ho']]. apply filter_In in Ho'.
  apply in_map_iff. exists o'. tauto.
Qed.

(** X15: [populateTypesAndNames] returns no object twice: the objects of
    its result are pairwise different objects, so an element reached
    through several of its filenames is returned once. *)
Theorem populateTypesAndNames_returns_each_object_once
    (env : Env) (t : SourceTracking) (elements : list Obj)
    (excludeUnresolvable : bool) :
  NoDup (map fst (populateTypesAndNames env t elements excludeUnresolvable)).
Proof.
  unfold populateTypesAndNames.
  destruct (Nat.eqb (length elements) 0); [constructor |].
  destruct excludeUnresolvable;
    [apply filter_NoDup_fst |]; apply new_Set_NoDup.
Qed.

Lemma new_Set_one_object (o : Obj) (values : list Obj) :
  Forall (eq o) values -> values <> [] -> new_Set values = [o].
Proof.
  intros Hall Hne. destruct values as [| v0 rest0]; [contradiction |].
  inversion Hall as [| ? ? <- Hrest]; subst. unfold new_Set. simpl.
  unfold set_add at 2. simpl.
  clear Hall Hne. induction Hrest as [| w rest <- _ IH]; simpl;
    [reflexivity |].
  unfold set_add at 2. simpl. rewrite ObjId_eqb_refl. simpl. exact IH.
Qed.

Lemma sets_nonempty {V : Type} (rel : string -> string) (v : V)
    (fs : list string) (m : JsMap V) :
  fs <> [] \/ m <> [] ->
  fold_left (fun acc f => map_set (rel f) v acc) fs m <> [].
Proof.
  revert m. induction fs as [| f rest IH]; intros m H; simpl.
  - destruct H as [H | H]; [contradiction | exact H].
  - apply IH. right. destruct m as [| [k w] m']; simpl; [discriminate |].
    destruct (String.eqb (rel f) k); discriminate.
Qed.

(** X16: one element whose filenames (one or several) the resolver finds no
    component for is returned once, as it came, when [excludeUnresolvable]
    is false. *)
Theorem populateTypesAndNames_unresolved_element_once
    (env : Env) (t : SourceTracking) (element : Obj) :
  optlist (filenames (snd element)) <> [] ->
  resolve_components env [element] = [] ->
  populateTypesAndNames env t [element] false = [element].
Proof.
  intros Hfiles Hnone. unfold populateTypesAndNames. simpl Nat.eqb.
  cbv iota. rewrite Hnone. simpl fold_left at 1. simpl snd.
  apply new_Set_one_object.
  - apply index_by_filename_Forall. intros e [<- | []]. reflexivity.
  - unfold index_by_filename, map_values. simpl fold_left at 1.
    intros Hnil. apply map_eq_nil in Hnil. revert Hnil.
    apply (sets_nonempty (ensureRelative env t)). left. exact Hfiles.
Qed.

Lemma populateTypesAndNames_unresolved_element_once_witness :
  let element :=
    (Given 7,
     mkChangeResult (Some origin_local) None None None None
       (Some ["classes/Bar.cls"; "classes/Bar.cls-meta.xml"])) in
  populateTypesAndNames Project.added_Foo Project.tracking [element] false =
  [element].
Proof.
  intros element.
  apply (populateTypesAndNames_unresolved_element_once Project.added_Foo
           Project.tracking element).
  - discriminate.
  - reflexivity.
Defined.

(** The inner loop of [populateTypesAndNames] on a map with one entry. *)
Lemma attach_identity_single (c : SourceComponent) (k : string)
    (files : list (option string)) (next : nat) (id : ObjId)
    (v : ChangeResult) :
  k <> "" ->
  exists next' id' v',
    fold_left (attach_identity c) files (next, [(k, (id, v))]) =
      (next', [(k, (id', v'))]) /\
    ((id', v') = (id, v) \/
     (exists j, id' = Fresh j) /\
     v' = with_identity v (type_name c) (fullName c)) /\
    (In (Some k) files ->
     (exists j, id' = Fresh j) /\
     v' = with_identity v (type_name c) (fullName c)).
Proof.
  intros Hk. revert next id v.
  induction files as [| f rest IH]; intros next id v; cbn [fold_left].
  - exists next, id, v. split; [reflexivity |].
    split; [left; reflexivity | intros []].
  - assert (Hstep :
      (f = Some k /\
       attach_identity c (next, [(k, (id, v))]) f =
         (S next,
          [(k, (Fresh next, with_identity v (type_name c) (fullName c)))]))
      \/
      (f <> Some k /\
       attach_identity c (next, [(k, (id, v))]) f =
         (next, [(k, (id, v))]))).
    { unfold attach_identity, map_has. destruct f as [k0 |]; simpl.
      - destruct (String.eqb_spec k0 ""); simpl.
        + right. split; [congruence | reflexivity].
        + destruct (String.eqb_spec k0 k) as [-> | Hne]; simpl.
          * left. split; reflexivity.
          * right. split; [congruence | reflexivity].
      - right. split; [discriminate | reflexivity]. }
    destruct Hstep as [[-> ->] | [Hne ->]].
    + destruct (IH (S next) (Fresh next)
                  (with_identity v (type_name c) (fullName c)))
        as [next' [id' [v' [Hfold [Hkind _]]]]].
      exists next', id', v'. split; [exact Hfold |].
      assert (Hdone : (exists j, id' = Fresh j) /\
                      v' = with_identity v (type_name c) (fullName c)).
      { destruct Hkind as [[= -> ->] | [Hid ->]];
          [split; [exists next |]; reflexivity
          | split; [exact Hid | reflexivity]]. }
      split; [right; exact Hdone | intros _; exact Hdone].
    + destruct (IH next id v) as [next' [id' [v' [Hfold [Hkind Hin]]]]].
      exists next', id', v'. split; [exact Hfold |].
      split; [exact Hkind |].
      intros [Heq | Hrest]; [contradiction | exact (Hin Hrest)].
Qed.

(** X17: one element with a single filename that the resolver assigns to
    one named component, which lists the filename's project-relative form
    among its own files, comes back as one new object with the component's
    type and name and everything else unchanged, for either value of
    [excludeUnresolvable]. *)
Theorem populateTypesAndNames_resolves_single_path
    (env : Env) (t : SourceTracking) (i : ObjId) (element : ChangeResult)
    (filename : string) (c : SourceComponent)
    (excludeUnresolvable : bool) :
  filenames element = Some [filename] ->
  getComponentsFromPath env filename = Some [c] ->
  named c = true ->
  ensureRelative env t filename <> "" ->
  In (Some (ensureRelative env t filename))
    (xml c :: map Some (walkContent c)) ->
  exists j,
    populateTypesAndNames env t [(i, element)] excludeUnresolvable =
    [(Fresh j, with_identity element (type_name c) (fullName c))].
Proof.
  intros Hf Hresolver Hnamed Hkey Hlisted.
  assert (Hcomponents : resolve_components env [(i, element)] = [c]).
  { unfold resolve_components. simpl. rewrite Hf. simpl.
    rewrite Hresolver. reflexivity. }
  assert (Hindex : index_by_filename env t [(i, element)] =
                   [(ensureRelative env t filename, (i, element))]).
  { unfold index_by_filename. simpl. rewrite Hf. reflexivity. }
  unfold populateTypesAndNames. simpl Nat.eqb. cbv iota.
  rewrite Hcomponents, Hindex.
  change (fold_left attach_identities [c]
            (0, [(ensureRelative env t filename, (i, element))]))
    with (attach_identities
            (0, [(ensureRelative env t filename, (i, element))]) c).
  unfold attach_identities. fold (named c). rewrite Hnamed.
  destruct (attach_identity_single c (ensureRelative env t filename)
              (xml c :: map Some (walkContent c)) 0 i element Hkey)
    as [next' [id' [v' [Hfold [_ Hin]]]]].
  rewrite Hfold. destruct (Hin Hlisted) as [[j ->] ->]. exists j.
  unfold new_Set, set_add, has_identity. simpl.
  unfold named in Hnamed. simpl in Hnamed. rewrite Hnamed.
  destruct excludeUnresolvable; reflexivity.
Qed.

Lemma populateTypesAndNames_resolves_single_path_witness :
  exists j,
    populateTypesAndNames Project.added_Foo Project.tracking
      [(Given 0, local_change "classes/Foo.cls")] true =
    [(Fresh j,
      with_identity (local_change "classes/Foo.cls")
        "ApexClass" "Foo")].
Proof.
  apply (populateTypesAndNames_resolves_single_path Project.added_Foo
           Project.tracking (Given 0)
           (local_change "classes/Foo.cls")
           "classes/Foo.cls" Project.Foo true).
  - reflexivity.
  - reflexivity.
  - reflexivity.
  - discriminate.
  - right. left. reflexivity.
Defined.

(** *** The push command: how it ends *)

Lemma run_cases (env : Env) (flags : Flags) (p : Process) :
  run env flags p =
  if truthy_flag (forceoverwrite flags)
  then (Throw (not_a_function "tracking.deployLocalChanges"), p)
  else
    match getConflicts env p with
    | (Ok [], p1) =>
        (Throw (not_a_function "tracking.deployLocalChanges"), p1)
    | (Ok (c :: rest), p1) =>
        (Throw (new_Error (msg_text "conflicts detected")),
         mkProcess (this p1)
           (calls p1 ++ [call_writeConflictTable (c :: rest)]))
    | (Throw e, p1) => (Throw e, p1)
    end.
Proof.
  unfold run, bind.
  destruct (truthy_flag (forceoverwrite flags)); simpl; [reflexivity |].
  unfold bind. destruct (getConflicts env p) as [[[| c rest] | e] p1];
    reflexivity.
Qed.

(** X18: with [forceoverwrite] set, [run] never looks for conflicts: it
    loads no ledger and makes no call at all.  It then fails where it would
    deploy: [SourceTracking] has no [deployLocalChanges], so the call throws
    a [TypeError] and the process is left as it was. *)
Theorem run_forceoverwrite_skips_conflict_check
    (env : Env) (flags : Flags) (p : Process) :
  truthy_flag (forceoverwrite flags) = true ->
  run env flags p =
  (Throw (not_a_function "tracking.deployLocalChanges"), p) /\
  err_name (not_a_function "tracking.deployLocalChanges") = "TypeError".
Proof.
  intros Hforce. rewrite run_cases, Hforce. split; reflexivity.
Qed.

Lemma run_forceoverwrite_skips_conflict_check_witness :
  run Project.added_Foo (mkFlags (Some true) None) Project.start =
  (Throw (TypeError "tracking.deployLocalChanges is not a function"),
   Project.start).
Proof.
  destruct (run_forceoverwrite_skips_conflict_check Project.added_Foo
              (mkFlags (Some true) None) Project.start eq_refl)
    as [Hrun _].
  exact Hrun.
Defined.

(** X19: [run] never returns normally and never deploys.  Whatever the
    flags, it throws, and the calls it makes are ledger calls and at most
    one [writeConflictTable], never a deploy and never a log of a deploy
    result.  It throws the error of [getConflicts] if that throws, the
    plain [conflicts detected] error if conflicts were found without
    [forceoverwrite], and otherwise, with [forceoverwrite] set or no
    conflict found, the [TypeError] of calling the missing
    [deployLocalChanges]. *)
Theorem run_never_returns_and_never_deploys
    (env : Env) (flags : Flags) (p : Process) :
  (exists e, fst (run env flags p) = Throw e) /\
  (exists made,
     calls (snd (run env flags p)) = calls p ++ made /\
     ~ In call_deployLocalChanges made /\
     (forall r, ~ In (call_logJson r) made)) /\
  (truthy_flag (forceoverwrite flags) = true \/
   fst (getConflicts env p) = Ok [] ->
   fst (run env flags p) =
     Throw (not_a_function "tracking.deployLocalChanges")) /\
  (truthy_flag (forceoverwrite flags) = false ->
   forall e, fst (getConflicts env p) = Throw e ->
             fst (run env flags p) = Throw e).
Proof.
  rewrite run_cases.
  destruct (truthy_flag (forceoverwrite flags)) eqn:Hforce.
  - split; [eexists; reflexivity |]. split; [| split].
    + exists []. rewrite app_nil_r. split; [reflexivity |].
      split; [intros [] | intros r []].
    + intros _. reflexivity.
    + discriminate.
  - destruct (getConflicts_run env p) as [_ [made [Hcalls Hledger]]].
    assert (Hlog : forall r, ~ In (call_logJson r) made).
    { intros r Hin. rewrite forallb_forall in Hledger.
      specialize (Hledger _ Hin). discriminate. }
    destruct (getConflicts env p) as [[[| c rest] | e] p1]; simpl in *.
    + split; [eexists; reflexivity |]. split; [| split].
      * exists made. split; [exact Hcalls |].
        split; [exact (ledger_calls_exclude_deploy made Hledger) | exact Hlog].
      * intros _. reflexivity.
      * intros _ e He. discriminate.
    + split; [eexists; reflexivity |]. split; [| split].
      * exists (made ++ [call_writeConflictTable (c :: rest)]).
        split; [rewrite Hcalls, <- app_assoc; reflexivity |]. split.
        -- intros Hin. apply in_app_or in Hin.
           destruct Hin as [Hin | [Hin | []]]; [| discriminate].
           exact (ledger_calls_exclude_deploy made Hledger Hin).
        -- intros r Hin. apply in_app_or in Hin.
           destruct Hin as [Hin | [Hin | []]]; [| discriminate].
           exact (Hlog r Hin).
      * intros [H | H]; discriminate.
      * intros _ e He. discriminate.
    + split; [eexists; reflexivity |]. split; [| split].
      * exists made. split; [exact Hcalls |].
        split; [exact (ledger_calls_exclude_deploy made Hledger) | exact Hlog].
      * intros [H | H]; discriminate.
      * intros _ e' [= ->]. reflexivity.
Qed.

Lemma run_never_returns_and_never_deploys_witness :
  fst (run Project.modified_Bar Project.no_flags Project.start) =
    Throw (TypeError "tracking.deployLocalChanges is not a function") /\
  fst (run (Project.env (mkShadowRepo [] [] [])
              (mkRemoteSourceTrackingService
                 [Project.Foo_changed; Project.Foo_changed]))
         Project.no_flags Project.start) =
    Throw (incomplete_component_set
             [remote_change Project.Foo_changed;
              remote_change Project.Foo_changed]).
Proof.
  split.
  - destruct (run_never_returns_and_never_deploys Project.modified_Bar
                Project.no_flags Project.start) as [_ [_ [Hmissing _]]].
    apply Hmissing. right. reflexivity.
  - destruct (run_never_returns_and_never_deploys
                (Project.env (mkShadowRepo [] [] [])
                   (mkRemoteSourceTrackingService
                      [Project.Foo_changed; Project.Foo_changed]))
                Project.no_flags Project.start) as [_ [_ [_ Hpassed]]].
    apply Hpassed; reflexivity.
Defined.

(** *** Loading the two ledgers in either order *)

(** X20: [ensureLocalTracking] and [ensureRemoteTracking] do not disturb
    each other: run in either order they return normally and leave the
    same instance, with both ledgers loaded; only the order of the factory
    calls differs. *)
Theorem ensure_tracking_order_is_immaterial
    (env : Env) (p : Process) (initializeWithQuery : bool) :
  let remote_first :=
    (ensureRemoteTracking env initializeWithQuery ;;;
     ensureLocalTracking env) p in
  let local_first :=
    (ensureLocalTracking env ;;;
     ensureRemoteTracking env initializeWithQuery) p in
  fst remote_first = Ok tt /\
  fst local_first = Ok tt /\
  this (snd remote_first) = this (snd local_first) /\
  localRepo (this (snd remote_first)) = Some (local_ledger env (this p)) /\
  remoteSourceTrackingService (this (snd remote_first)) =
    Some (remote_ledger env (this p)) /\
  Permutation (calls (snd remote_first)) (calls (snd local_first)).
Proof.
  destruct p as [t cs]. destruct t as [o pp pd u lr rs].
  unfold local_ledger, remote_ledger. run_monad.
  destruct lr as [lr |]; destruct rs as [rs |];
    destruct initializeWithQuery; simpl;
    unfold set_localRepo, set_remoteSourceTrackingService; simpl;
    repeat (split; [reflexivity |]);
    rewrite <- ?app_assoc; simpl; try reflexivity;
    apply Permutation_app_head;
    first
      [ exact (Permutation_app_comm [call_getInstance; call_retrieveUpdates]
                 [call_ShadowRepo_create; call_getStatus])
      | exact (Permutation_app_comm [call_getInstance]
                 [call_ShadowRepo_create; call_getStatus]) ].
Qed.

(** *** [updateLocalTracking] and [ensureRelative] *)

Lemma ensureRelative_not_absolute (env : Env) (t : SourceTracking)
    (f : string) :
  (path_isAbsolute env f = true ->
   path_isAbsolute env (path_relative env (projectPath t) f) = false) ->
  path_isAbsolute env (ensureRelative env t f) = false /\
  ensureRelative env t (ensureRelative env t f) = ensureRelative env t f.
Proof.
  intros Hrel. unfold ensureRelative.
  destruct (path_isAbsolute env f) eqn:Habs.
  - rewrite (Hrel eq_refl). split; reflexivity.
  - rewrite Habs. split; reflexivity.
Qed.

(** X21: [updateLocalTracking] loads the local ledger if need be and
    commits to it, without a message, the given files and deleted files
    with each path passed through [ensureRelative]: a missing list stays
    missing, the paths keep their number and order, a path that is not
    absolute is committed as it is, and, as long as [path.relative] answers
    the given absolute paths with paths that are not absolute, no absolute
    path reaches the ledger. *)
Theorem updateLocalTracking_commits_relative_paths
    (env : Env)
    (commitChanges :
       ShadowRepo -> option (list string) -> option (list string) ->
       option string -> ShadowRepo)
    (options : LocalUpdateOptions) (p : Process) :
  (forall f,
     In f (optlist (files options) ++ optlist (deletedFiles options)) ->
     path_isAbsolute env f = true ->
     path_isAbsolute env (path_relative env (projectPath (this p)) f)
       = false) ->
  let deployed := relative_paths env (this p) (files options) in
  let deleted := relative_paths env (this p) (deletedFiles options) in
  fst (updateLocalTracking env commitChanges options p) = Ok tt /\
  localRepo (this (snd (updateLocalTracking env commitChanges options p))) =
    Some (commitChanges (local_ledger env (this p)) deployed deleted None) /\
  option_map (@length string) deployed =
    option_map (@length string) (files options) /\
  option_map (@length string) deleted =
    option_map (@length string) (deletedFiles options) /\
  (forall f, In f (optlist deployed ++ optlist deleted) ->
             path_isAbsolute env f = false) /\
  ((forall f, In f (optlist (files options)) ->
              path_isAbsolute env f = false) ->
   deployed = files options).
Proof.
  intros Hrel deployed deleted.
  split; [| split; [| split; [| split; [| split]]]].
  - destruct p as [t cs]. unfold updateLocalTracking. run_monad.
    destruct (localRepo t) eqn:Hr; simpl; rewrite ?Hr; reflexivity.
  - subst deployed deleted. destruct p as [t cs].
    destruct t as [o pp pd u lr rs].
    unfold updateLocalTracking, local_ledger, relative_paths, ensureRelative.
    run_monad. destruct lr as [lr |]; reflexivity.
  - subst deployed. unfold relative_paths.
    destruct (files options); simpl; [rewrite length_map |]; reflexivity.
  - subst deleted. unfold relative_paths.
    destruct (deletedFiles options); simpl; [rewrite length_map |];
      reflexivity.
  - intros f Hf. subst deployed deleted. unfold relative_paths in Hf.
    assert (Hsource :
              exists g,
                In g (optlist (files options) ++
                      optlist (deletedFiles options)) /\
                f = ensureRelative env (this p) g).
    { apply in_app_or in Hf.
      destruct Hf as [Hf | Hf];
        [destruct (files options) as [fs |]
        | destruct (deletedFiles options) as [fs |]];
        simpl in Hf; try destruct Hf;
        apply in_map_iff in Hf; destruct Hf as [g [<- Hg]];
        exists g; (split; [apply in_or_app | reflexivity]);
        [left | right]; destruct (files options);
        destruct (deletedFiles options); simpl; auto. }
    destruct Hsource as [g [Hg ->]].
    apply ensureRelative_not_absolute. apply Hrel. exact Hg.
  - intros Hplain. subst deployed. unfold relative_paths.
    destruct (files options) as [fs |]; simpl in *; [| reflexivity].
    f_equal. rewrite <- (map_id fs) at 2. apply map_ext_in.
    intros f Hf. unfold ensureRelative. rewrite (Hplain f Hf). reflexivity.
Qed.

(** *** [populateTypesAndNames]: one record for each resolved filename *)

Lemma attach_identity_keys (c : SourceComponent) (st : Alloc (JsMap Obj))
    (f : option string) :
  map_keys (snd (attach_identity c st f)) = map_keys (snd st).
Proof.
  destruct st as [next m]. unfold attach_identity.
  destruct (truthy f); simpl; [| reflexivity].
  destruct (map_has (template f) m) eqn:Hhas; simpl; [| reflexivity].
  rewrite map_keys_set, Hhas. reflexivity.
Qed.

Lemma attach_identity_fold_keys (c : SourceComponent)
    (files : list (option string)) (st : Alloc (JsMap Obj)) :
  map_keys (snd (fold_left (attach_identity c) files st)) = map_keys (snd st).
Proof.
  revert st. induction files as [| f rest IH]; intros st; simpl;
    [reflexivity |].
  rewrite IH. apply attach_identity_keys.
Qed.

Lemma attach_identities_keys (components : list SourceComponent)
    (st : Alloc (JsMap Obj)) :
  map_keys (snd (fold_left attach_identities components st)) =
  map_keys (snd st).
Proof.
  revert st. induction components as [| c rest IH]; intros st; simpl;
    [reflexivity |].
  rewrite IH. unfold attach_identities.
  destruct (truthy (Some (fullName c)) && truthy (Some (type_name c)));
    [apply attach_identity_fold_keys | reflexivity].
Qed.

Lemma fresh_at_step (c : SourceComponent) (st : Alloc (JsMap Obj))
    (f : option string) (k : string) :
  fresh_at (snd st) k -> fresh_at (snd (attach_identity c st f)) k.
Proof.
  destruct st as [next m]. unfold attach_identity, fresh_at. simpl.
  intros Hk. destruct (truthy f); simpl; [| exact Hk].
  destruct (map_has (template f) m); simpl; [| exact Hk].
  rewrite map_get_set. destruct (String.eqb k (template f)); [| exact Hk].
  eexists. eexists. reflexivity.
Qed.

Lemma fresh_at_fold (c : SourceComponent) (files : list (option string))
    (st : Alloc (JsMap Obj)) (k : string) :
  fresh_at (snd st) k ->
  fresh_at (snd (fold_left (attach_identity c) files st)) k.
Proof.
  revert st. induction files as [| f rest IH]; intros st Hk; simpl;
    [exact Hk |].
  apply IH, fresh_at_step, Hk.
Qed.

Lemma fresh_at_listed (c : SourceComponent) (files : list (option string))
    (st : Alloc (JsMap Obj)) (k : string) :
  k <> "" -> In (Some k) files -> In k (map_keys (snd st)) ->
  fresh_at (snd (fold_left (attach_identity c) files st)) k.
Proof.
  intros Hk. revert st. induction files as [| f rest IH]; intros st Hin Hkey;
    simpl; [destruct Hin |].
  destruct Hin as [-> | Hin].
  - apply fresh_at_fold. destruct st as [next m].
    unfold attach_identity, fresh_at. simpl.
    destruct (String.eqb_spec k ""); [contradiction |]. simpl.
    apply map_has_keys in Hkey. simpl in Hkey. rewrite Hkey.
    simpl. rewrite map_get_set, String.eqb_refl. eexists. eexists. reflexivity.
  - apply IH; [exact Hin |]. rewrite attach_identity_keys. exact Hkey.
Qed.

Lemma fresh_at_components (components : list SourceComponent)
    (st : Alloc (JsMap Obj)) (k : string) :
  k <> "" -> In k (map_keys (snd st)) ->
  (exists c, In c components /\ named c = true /\
             In (Some k) (xml c :: map Some (walkContent c))) ->
  fresh_at (snd (fold_left attach_identities components st)) k.
Proof.
  intros Hk Hkey [c [Hc [Hnamed Hlisted]]]. revert st Hkey.
  assert (Hkeep : forall cs st,
             fresh_at (snd st) k ->
             fresh_at (snd (fold_left attach_identities cs st)) k).
  { induction cs as [| c' rest IH]; intros st Hst; simpl; [exact Hst |].
    apply IH. unfold attach_identities.
    destruct (truthy (Some (fullName c')) && truthy (Some (type_name c')));
      [apply fresh_at_fold |]; exact Hst. }
  induction components as [| c0 rest IH]; intros st Hkey; [destruct Hc |].
  simpl. destruct Hc as [-> | Hc].
  - apply Hkeep. unfold attach_identities. fold (named c). rewrite Hnamed.
    apply fresh_at_listed; assumption.
  - apply IH; [exact Hc |]. unfold attach_identities.
    destruct (truthy (Some (fullName c0)) && truthy (Some (type_name c0)));
      [rewrite attach_identity_fold_keys |]; exact Hkey.
Qed.

Lemma fresh_ids_set (k : string) (next : nat) (v : ChangeResult)
    (m : JsMap Obj) :
  NoDup (fresh_ids m) ->
  (forall j, In j (fresh_ids m) -> j < next) ->
  NoDup (fresh_ids (map_set k (Fresh next, v) m)) /\
  (forall j, In j (fresh_ids (map_set k (Fresh next, v) m)) -> j < S next).
Proof.
  induction m as [| [k0 [id0 v0]] rest IH]; intros Hnd Hlt.
  - simpl. split; [repeat constructor; intros [] |].
    intros j [<- | []]. lia.
  - cbn [map_set]. destruct (String.eqb k k0).
    + unfold fresh_ids in *. cbn [flat_map fst snd] in *.
      assert (Hrest : NoDup (flat_map
                               (fun kv => match fst (snd kv) with
                                          | Fresh j => [j]
                                          | Given _ => []
                                          end) rest))
        by (destruct id0; [exact Hnd | inversion Hnd; assumption]).
      assert (Hlt_rest : forall j,
                 In j (flat_map
                         (fun kv => match fst (snd kv) with
                                    | Fresh j => [j]
                                    | Given _ => []
                                    end) rest) -> j < next)
        by (intros j Hj; apply Hlt, in_or_app; right; exact Hj).
      split.
      * simpl. constructor; [| exact Hrest].
        intros Hin. apply Hlt_rest in Hin. lia.
      * simpl. intros j [<- | Hj]; [lia |]. apply Hlt_rest in Hj. lia.
    + unfold fresh_ids in *. cbn [flat_map fst snd] in *.
      destruct IH as [IHnd IHlt].
      { destruct id0; [exact Hnd | inversion Hnd; assumption]. }
      { intros j Hj. apply Hlt, in_or_app. right. exact Hj. }
      destruct id0 as [i | i]; simpl; [split; assumption |].
      simpl in Hnd. inversion Hnd as [| ? ? Hnotin Hnd']; subst. split.
      * constructor; [| exact IHnd]. intros Hin.
        assert (Hi : i < next) by (apply Hlt; left; reflexivity).
        clear IHnd IHlt Hnd Hnd' Hlt.
        induction rest as [| [k1 [id1 v1]] rest' IHr]; simpl in *.
        -- destruct Hin as [<- | []]. lia.
        -- destruct (String.eqb k k1); simpl in *.
           ++ destruct Hin as [<- | Hin]; [lia |].
              apply Hnotin. apply in_or_app. right. exact Hin.
           ++ apply in_app_or in Hin. destruct Hin as [Hin | Hin].
              ** apply Hnotin. apply in_or_app. left. exact Hin.
              ** apply IHr; [| exact Hin]. intros H. apply Hnotin.
                 apply in_or_app. right. exact H.
      * intros j [<- | Hj]; [| apply IHlt; exact Hj].
        assert (i < next) by (apply Hlt; left; reflexivity). lia.
Qed.

Lemma fresh_ids_attach (components : list SourceComponent)
    (st : Alloc (JsMap Obj)) :
  NoDup (fresh_ids (snd st)) ->
  (forall j, In j (fresh_ids (snd st)) -> j < fst st) ->
  NoDup (fresh_ids (snd (fold_left attach_identities components st))).
Proof.
  assert (Hstep : forall c f st,
             NoDup (fresh_ids (snd st)) /\
             (forall j, In j (fresh_ids (snd st)) -> j < fst st) ->
             NoDup (fresh_ids (snd (attach_identity c st f))) /\
             (forall j, In j (fresh_ids (snd (attach_identity c st f))) ->
                        j < fst (attach_identity c st f))).
  { intros c f [next m] [Hnd Hlt]. unfold attach_identity. simpl in *.
    destruct (truthy f); simpl; [| split; assumption].
    destruct (map_has (template f) m); simpl; [| split; assumption].
    apply fresh_ids_set; assumption. }
  assert (Hinner : forall c files st,
             NoDup (fresh_ids (snd st)) /\
             (forall j, In j (fresh_ids (snd st)) -> j < fst st) ->
             NoDup (fresh_ids (snd (fold_left (attach_identity c) files st)))
             /\
             (forall j,
                In j (fresh_ids
                        (snd (fold_left (attach_identity c) files st))) ->
                j < fst (fold_left (attach_identity c) files st))).
  { intros c files. induction files as [| f rest IH]; intros st0 H; simpl;
      [exact H | apply IH, Hstep, H]. }
  assert (Houter : forall cs st,
             NoDup (fresh_ids (snd st)) /\
             (forall j, In j (fresh_ids (snd st)) -> j < fst st) ->
             NoDup (fresh_ids (snd (fold_left attach_identities cs st))) /\
             (forall j,
                In j (fresh_ids (snd (fold_left attach_identities cs st))) ->
                j < fst (fold_left attach_identities cs st))).
  { induction cs as [| c rest IH]; intros st0 H; simpl; [exact H |].
    apply IH. unfold attach_identities.
    destruct (truthy (Some (fullName c)) && truthy (Some (type_name c)));
      [apply Hinner |]; exact H. }
  intros Hnd Hlt. apply Houter. split; assumption.
Qed.

Lemma ObjId_eqb_eq (a b : ObjId) : ObjId_eqb a b = true -> a = b.
Proof.
  destruct a, b; simpl; intros H; try discriminate;
    apply Nat.eqb_eq in H; subst; reflexivity.
Qed.

(** A set built from pairwise different objects holds them all, in
    order. *)
Lemma new_Set_distinct (values : list Obj) :
  NoDup (map fst values) -> new_Set values = values.
Proof.
  unfold new_Set.
  assert (Hgen : forall s, NoDup (map fst (s ++ values)) ->
                           fold_left (fun s o => set_add o s) values s =
                           s ++ values).
  { induction values as [| v rest IH]; intros s Hnd; simpl;
      [rewrite app_nil_r; reflexivity |].
    assert (Hnew : set_add v s = s ++ [v]).
    { unfold set_add.
      destruct (existsb (fun o' => ObjId_eqb (fst v) (fst o')) s) eqn:Hex;
        [| reflexivity].
      exfalso. apply existsb_exists in Hex. destruct Hex as [o' [Ho' Heq]].
      apply ObjId_eqb_eq in Heq. rewrite map_app in Hnd. simpl in Hnd.
      apply NoDup_remove_2 in Hnd. apply Hnd. apply in_or_app. left.
      rewrite Heq. apply in_map. exact Ho'. }
    rewrite Hnew, IH; rewrite <- app_assoc; [reflexivity | exact Hnd]. }
  intros Hnd. apply (Hgen [] Hnd).
Qed.

Lemma map_get_of_entry {V : Type} (k : string) (v : V) (m : JsMap V) :
  NoDup (map_keys m) -> In (k, v) m -> map_get k m = Some v.
Proof.
  induction m as [| [k0 v0] rest IH]; simpl; [intros _ [] |].
  intros Hnd [[= -> ->] | Hin]; [rewrite String.eqb_refl; reflexivity |].
  inversion Hnd as [| ? ? Hnotin Hnd']; subst.
  destruct (String.eqb_spec k k0) as [-> | Hne]; [| apply IH; assumption].
  exfalso. apply Hnotin. apply in_map_iff. exists (k0, v). split;
    [reflexivity | exact Hin].
Qed.

Lemma index_by_filename_keys (env : Env) (t : SourceTracking)
    (elements : list Obj) :
  NoDup (map_keys (index_by_filename env t elements)) /\
  (forall k, In k (map_keys (index_by_filename env t elements)) <->
             exists e f, In e elements /\
                         In f (optlist (filenames (snd e))) /\
                         k = ensureRelative env t f).
Proof.
  unfold index_by_filename.
  rewrite (nested_loop_flat
             (fun acc filename element =>
                map_set (ensureRelative env t filename) element acc)
             (fun element => optlist (filenames (snd element)))).
  set (pairs := flat_map (fun x => map (fun y => (y, x))
                                     (optlist (filenames (snd x))))
                  elements).
  assert (Hpairs : forall y x, In (y, x) pairs <->
                               In x elements /\
                               In y (optlist (filenames (snd x)))).
  { intros y x. unfold pairs. rewrite in_flat_map. split.
    - intros [x' [Hx' Hin]]. apply in_map_iff in Hin.
      destruct Hin as [y' [[= <- <-] Hy]]. split; assumption.
    - intros [Hx Hy]. exists x. split; [exact Hx |].
      apply in_map_iff. exists y. split; [reflexivity | exact Hy]. }
  assert (Hgen : forall ps (m : JsMap Obj),
             NoDup (map_keys m) ->
             NoDup (map_keys
                      (fold_left
                         (fun acc yx => map_set (ensureRelative env t (fst yx))
                                          (snd yx) acc) ps m)) /\
             (forall k,
                In k (map_keys
                        (fold_left
                           (fun acc yx =>
                              map_set (ensureRelative env t (fst yx))
                                (snd yx) acc) ps m)) <->
                In k (map_keys m) \/
                exists yx, In yx ps /\ k = ensureRelative env t (fst yx))).
  { induction ps as [| yx rest IH]; intros m Hnd; simpl.
    - split; [exact Hnd |]. intros k. split; [intros H; left; exact H |].
      intros [H | [yx [[] _]]]. exact H.
    - destruct (IH (map_set (ensureRelative env t (fst yx)) (snd yx) m)
                  (NoDup_map_keys_set _ _ _ Hnd)) as [IHnd IHin].
      split; [exact IHnd |]. intros k. rewrite IHin, map_keys_set.
      destruct (map_has (ensureRelative env t (fst yx)) m) eqn:Hhas.
      + split.
        * intros [H | [yx' [Hin Hk]]]; [left; exact H |].
          right. exists yx'. split; [right; exact Hin | exact Hk].
        * intros [H | [yx' [[<- | Hin] Hk]]]; [left; exact H | |].
          -- left. subst k. apply map_has_keys. exact Hhas.
          -- right. exists yx'. split; assumption.
      + rewrite in_app_iff. simpl. split.
        * intros [[H | [<- | []]] | [yx' [Hin Hk]]].
          -- left. exact H.
          -- right. exists yx. split; [left; reflexivity | reflexivity].
          -- right. exists yx'. split; [right; exact Hin | exact Hk].
        * intros [H | [yx' [[<- | Hin] Hk]]].
          -- left. left. exact H.
          -- left. right. left. symmetry. exact Hk.
          -- right. exists yx'. split; assumption. }
  destruct (Hgen pairs [] (NoDup_nil _)) as [Hnd Hin]. split; [exact Hnd |].
  intros k. rewrite Hin. split.
  - intros [[] | [[y x] [Hyx Hk]]]. apply Hpairs in Hyx.
    exists x, y. simpl in Hk. tauto.
  - intros [e [f [He [Hf Hk]]]]. right. exists (f, e).
    split; [apply Hpairs; tauto | exact Hk].
Qed.

Lemma fresh_ids_given (m : JsMap Obj) :
  Forall (fun o => exists i, fst o = Given i) (map_values m) ->
  fresh_ids m = [].
Proof.
  induction m as [| [k [id v]] rest IH]; simpl; [reflexivity |].
  intros Hall. inversion Hall as [| ? ? [i Hi] Hrest]; subst.
  simpl in Hi. subst id. simpl. apply IH. exact Hrest.
Qed.

Lemma fresh_values (m : JsMap Obj) :
  (forall k o, In (k, o) m -> exists j, fst o = Fresh j) ->
  map fst (map_values m) = map Fresh (fresh_ids m).
Proof.
  induction m as [| [k [id v]] rest IH]; intros Hall; simpl; [reflexivity |].
  destruct (Hall k (id, v) (or_introl eq_refl)) as [j Hj]. simpl in Hj.
  subst id. unfold fresh_ids. simpl. f_equal. apply IH.
  intros k' o Hin. apply (Hall k'). right. exact Hin.
Qed.

Lemma NoDup_map_Fresh (ids : list nat) :
  NoDup ids -> NoDup (map Fresh ids).
Proof.
  induction 1 as [| j rest Hnotin _ IH]; simpl; constructor; [| exact IH].
  intros Hin. apply in_map_iff in Hin. destruct Hin as [j' [[= ->] Hj']].
  contradiction.
Qed.

Lemma filter_all {A : Type} (keep : A -> bool) (xs : list A) :
  (forall x, In x xs -> keep x = true) -> filter keep xs = xs.
Proof.
  induction xs as [| x rest IH]; intros H; simpl; [reflexivity |].
  rewrite (H x (or_introl eq_refl)). f_equal. apply IH.
  intros y Hy. apply H. right. exact Hy.
Qed.

(** When every filename is resolved, the result is the values of the
    final map, all of them new objects with a type and a name. *)
Lemma populateTypesAndNames_all_resolved (env : Env) (t : SourceTracking)
    (elements : list Obj) (excludeUnresolvable : bool) :
  elements <> [] ->
  (forall e, In e elements -> exists i, fst e = Given i) ->
  (forall k, In k (map_keys (index_by_filename env t elements)) ->
     k <> "" /\
     exists c, In c (resolve_components env elements) /\ named c = true /\
               In (Some k) (xml c :: map Some (walkContent c))) ->
  exists final,
    map_keys final = map_keys (index_by_filename env t elements) /\
    populateTypesAndNames env t elements excludeUnresolvable =
      map_values final /\
    (forall o, In o (map_values final) ->
       (exists j, fst o = Fresh j) /\ has_identity o = true).
Proof.
  intros Hne Hgiven Hlisted.
  destruct (index_by_filename_keys env t elements) as [Hnd _].
  set (final := snd (fold_left attach_identities
                       (resolve_components env elements)
                       (0, index_by_filename env t elements))).
  assert (Hfinal_keys : map_keys final =
                        map_keys (index_by_filename env t elements))
    by apply attach_identities_keys.
  assert (Hfresh : forall k o, In (k, o) final -> exists j, fst o = Fresh j).
  { intros k o Hin.
    assert (Hk : In k (map_keys (index_by_filename env t elements))).
    { rewrite <- Hfinal_keys. apply in_map_iff. exists (k, o).
      split; [reflexivity | exact Hin]. }
    destruct (Hlisted k Hk) as [Hkne Hc].
    destruct (fresh_at_components (resolve_components env elements)
                (0, index_by_filename env t elements) k Hkne Hk Hc)
      as [j [v Hget]].
    fold final in Hget.
    rewrite (map_get_of_entry k o final) in Hget;
      [| rewrite Hfinal_keys; exact Hnd | exact Hin].
    injection Hget as ->. exists j. reflexivity. }
  assert (Hstart : fresh_ids (index_by_filename env t elements) = []).
  { apply fresh_ids_given. apply index_by_filename_Forall. exact Hgiven. }
  assert (Hdistinct : NoDup (map fst (map_values final))).
  { rewrite (fresh_values final Hfresh). apply NoDup_map_Fresh.
    apply fresh_ids_attach; simpl; rewrite Hstart;
      [constructor | intros j []]. }
  assert (Hfalse : populateTypesAndNames env t elements false =
                   map_values final).
  { unfold populateTypesAndNames.
    destruct elements as [| e0 rest0]; [contradiction |].
    simpl Nat.eqb. cbv iota. apply new_Set_distinct. exact Hdistinct. }
  assert (Hall : forall o, In o (map_values final) ->
                           (exists j, fst o = Fresh j) /\
                           has_identity o = true).
  { intros o Ho. assert (Ho' := Ho). apply in_map_iff in Ho.
    destruct Ho as [[k o'] [Heq Hin]]. simpl in Heq. subst o'.
    destruct (Hfresh k o Hin) as [j Hj]. split; [exists j; exact Hj |].
    rewrite <- Hfalse in Ho'.
    assert (HP : (exists i, fst o = Given i) \/ has_identity o = true).
    { revert Ho'.
      apply (populateTypesAndNames_ind env t elements false
               (fun o => (exists i, fst o = Given i) \/
                         has_identity o = true)).
      - intros e He. left. apply Hgiven. exact He.
      - intros c n v _ Hnamed _. right. unfold has_identity. simpl.
        unfold named in Hnamed. exact Hnamed. }
    destruct HP as [[i Hi] | HP]; [congruence | exact HP]. }
  exists final. split; [exact Hfinal_keys |]. split; [| exact Hall].
  destruct excludeUnresolvable; [| exact Hfalse].
  unfold populateTypesAndNames.
  destruct elements as [| e0 rest0]; [contradiction |].
  simpl Nat.eqb. cbv iota. fold final.
  rewrite (new_Set_distinct _ Hdistinct). apply filter_all.
  intros o Ho. apply Hall. exact Ho.
Qed.

(** X22: when every input element is an object of the caller and every
    project-relative filename of the input is listed by a named component
    the resolver found, [populateTypesAndNames] returns one new object for
    each distinct project-relative filename, not one for each element: an
    element with two resolved files comes back as two records.  Each
    returned object has a non-empty type and name, so the flag makes no
    difference. *)
Theorem populateTypesAndNames_one_record_per_resolved_filename
    (env : Env) (t : SourceTracking) (elements : list Obj)
    (excludeUnresolvable : bool) :
  (forall e, In e elements -> exists i, fst e = Given i) ->
  (forall k, In k (map_keys (index_by_filename env t elements)) ->
     k <> "" /\
     exists c, In c (resolve_components env elements) /\ named c = true /\
               In (Some k) (xml c :: map Some (walkContent c))) ->
  length (populateTypesAndNames env t elements excludeUnresolvable) =
    length (map_keys (index_by_filename env t elements)) /\
  NoDup (map_keys (index_by_filename env t elements)) /\
  (forall k, In k (map_keys (index_by_filename env t elements)) <->
             exists e f, In e elements /\
                         In f (optlist (filenames (snd e))) /\
                         k = ensureRelative env t f) /\
  (forall o,
     In o (populateTypesAndNames env t elements excludeUnresolvable) ->
     (exists j, fst o = Fresh j) /\ has_identity o = true).
Proof.
  intros Hgiven Hlisted.
  destruct (index_by_filename_keys env t elements) as [Hnd Hkeys].
  destruct elements as [| e0 rest0].
  - split; [reflexivity |]. split; [exact Hnd |]. split; [exact Hkeys |].
    intros o [].
  - destruct (populateTypesAndNames_all_resolved env t (e0 :: rest0)
                excludeUnresolvable) as [final [Hfinal_keys [Hout Hall]]];
      [discriminate | exact Hgiven | exact Hlisted |].
    split; [| split; [exact Hnd | split; [exact Hkeys |]]].
    + rewrite Hout, <- Hfinal_keys. unfold map_values, map_keys.
      rewrite !length_map. reflexivity.
    + intros o Ho. apply Hall. rewrite <- Hout. exact Ho.
Qed.

Lemma populateTypesAndNames_one_record_per_resolved_filename_witness :
  let both :=
    (Given 0,
     mkChangeResult (Some origin_local) None None None None
       (Some ["classes/Foo.cls"; "classes/Foo.cls-meta.xml"])) in
  length (populateTypesAndNames Project.added_Foo Project.tracking [both]
            false) = 2.
Proof.
  intros both.
  destruct (populateTypesAndNames_one_record_per_resolved_filename
              Project.added_Foo Project.tracking [both] false)
    as [Hlength _].
  - intros e [<- | []]. exists 0. reflexivity.
  - intros k [<- | [<- | []]]; (split; [discriminate |]);
      exists Project.Foo;
      (split; [left; reflexivity | split; [reflexivity |]]);
      [right; left; reflexivity | left; reflexivity].
  - exact Hlength.
Defined.

Lemma updateLocalTracking_commits_relative_paths_witness :
  let commit :=
    fun (repo : ShadowRepo) (deployed deleted : option (list string))
        (message : option string) =>
      mkShadowRepo
        (filter (fun f => negb (existsb (String.eqb f) (optlist deployed)))
           (getModifyFilenames repo))
        (filter (fun f => negb (existsb (String.eqb f) (optlist deleted)))
           (getDeleteFilenames repo))
        (filter (fun f => negb (existsb (String.eqb f) (optlist deployed)))
           (getAddFilenames repo)) in
  let options :=
    mkLocalUpdateOptions
      (Some ["/work/project/classes/Foo.cls"; "classes/Bar.cls"]) None in
  relative_paths Project.added_Foo Project.tracking (files options) =
    Some ["classes/Foo.cls"; "classes/Bar.cls"] /\
  localRepo
    (this (snd (updateLocalTracking Project.added_Foo commit options
                  Project.start))) =
    Some (mkShadowRepo [] [] []).
Proof.
  intros commit options.
  destruct (updateLocalTracking_commits_relative_paths Project.added_Foo
              commit options Project.start) as [_ [Hstored _]].
  - intros f [<- | [<- | []]] Habs; [reflexivity | discriminate].
  - split; [reflexivity |]. rewrite Hstored. reflexivity.
Defined.

(** *** Overlapping calls of [ensureLocalTracking] and
    [ensureRemoteTracking] *)















